(** * AI Schedule Beautifier: event decoder and layout engine

    A shallow embedding of [src/App.tsx] (tabular parser, event decoder,
    colour assignment) and of the gap-collapsing revision of
    [components/Schedule.tsx] (visible window, interval union, timeline
    segments, coordinate mapping, column packing, visible day columns),
    followed by the properties the design document states about them.

    Conventions of the embedding.
    - A JavaScript string is a [string] of 8-bit code units.
    - An integral JavaScript number is a [Z]; pixel offsets, which the source
      computes with [/ 60 * HOUR_HEIGHT], are exact rationals [Q]; the result
      of [parseFloat] is a [number] (NaN, an infinity, or an exact rational).
      Rounding of IEEE doubles is not modelled: of the pixel offsets only
      the order and the formula are stated, never an equality that rounding
      could break.
    - A [Date] is given by its local wall-clock time in milliseconds since
      local 1970-01-01 00:00 (a Thursday); the zone offset is taken to be
      constant, so that [getTime] differs from it by a constant and every
      comparison of two [getTime] values is a comparison of local times.
      The decoder can make an Invalid Date, by a constructor call on
      components out of range: it is the [Date] on which [isInvalidDate]
      holds, and [toISOString] raises a RangeError on it.  Everywhere else
      dates are valid.
    - An exception of the decoder, which the handler catches, is an [inl] of
      a sum ([throws]); in the Schedule component, where nothing is caught,
      the TypeError of reading the last event of an empty column is a
      [None]. *)

From Stdlib Require Import ZArith QArith Lqa Lia.
From Stdlib Require Import Strings.String Strings.Ascii Numbers.DecimalString.
From Equations Require Import Equations.
From stdpp Require Import base option list sorting gmap strings.

Local Open Scope Z_scope.

(** ** The JavaScript platform, as far as the program uses it *)

Module JS.

(** *** Exceptions *)

Inductive exn : Type :=
| Error (message : string)
| TypeError (message : string)
| RangeError (message : string).

Definition message (e : exn) : string :=
  match e with Error m => m | TypeError m => m | RangeError m => m end.

(** A computation that returns or throws. *)
Definition throws (A : Type) : Type := (exn + A)%type.
Definition throw {A} (e : exn) : throws A := inl e.

#[global] Instance throws_ret : MRet throws := fun A a => inr a.
#[global] Instance throws_bind : MBind throws := fun A B k m =>
  match m with inl e => inl e | inr a => k a end.

(** The message V8 attaches to [undefined.split]. *)
Definition undefinedSplit : string :=
  "Cannot read properties of undefined (reading 'split')".

(** The message V8 attaches to [toISOString] on an Invalid Date. *)
Definition invalidTimeValue : string := "Invalid time value".

(** *** Array.prototype.sort with a comparator

    The sort is stable (ECMAScript 2019): an element moves in front of
    another only when the comparator is positive on the pair.  Insertion
    from the right realises exactly that order. *)

Section Sort.
Context {A : Type} (cmp : A -> A -> Z).

Fixpoint insert_sorted (x : A) (l : list A) : list A :=
  match l with
  | [] => [x]
  | y :: l' => if 0 <? cmp x y then y :: insert_sorted x l' else x :: l
  end.

Fixpoint sort (l : list A) : list A :=
  match l with
  | [] => []
  | x :: l' => insert_sorted x (sort l')
  end.

End Sort.

(** *** Strings *)

Definition tab : ascii := ascii_of_nat 9.
Definition newline : ascii := ascii_of_nat 10.
Definition quote : ascii := ascii_of_nat 34.

(** White space and line terminators among the code units below 256. *)
Definition isWhiteSpace (c : ascii) : bool :=
  let n := nat_of_ascii c in
  ((9 <=? n) && (n <=? 13) || (n =? 32) || (n =? 160))%nat.

Definition isDigit (c : ascii) : bool :=
  let n := nat_of_ascii c in ((48 <=? n) && (n <=? 57))%nat.

Definition digitValue (c : ascii) : Z := Z.of_nat (nat_of_ascii c) - 48.

Fixpoint trimStart (s : string) : string :=
  match s with
  | String c s' => if isWhiteSpace c then trimStart s' else s
  | EmptyString => EmptyString
  end.

Fixpoint trimEnd (s : string) : string :=
  match s with
  | String c s' =>
      match trimEnd s' with
      | EmptyString => if isWhiteSpace c then EmptyString else String c EmptyString
      | t => String c t
      end
  | EmptyString => EmptyString
  end.

Definition trim (s : string) : string := trimEnd (trimStart s).

(** Adds a code unit in front of the first piece of a split. *)
Definition consHead (c : ascii) (pieces : list string) : list string :=
  match pieces with
  | h :: t => String c h :: t
  | [] => [String c EmptyString]
  end.

(** [s.split(sep)] for a separator of one code unit. *)
Fixpoint split (sep : ascii) (s : string) : list string :=
  match s with
  | EmptyString => [EmptyString]
  | String c s' =>
      if Ascii.eqb c sep then EmptyString :: split sep s'
      else consHead c (split sep s')
  end.

(** [s.split(/\s+/)]: the separators are the maximal runs of white space;
    [inRun] tells that the previous code unit was white space. *)
Fixpoint splitSpaces (inRun : bool) (s : string) : list string :=
  match s with
  | EmptyString => [EmptyString]
  | String c s' =>
      if isWhiteSpace c
      then (if inRun then splitSpaces true s' else EmptyString :: splitSpaces true s')
      else consHead c (splitSpaces false s')
  end.

(** Number of matches of [s.match(/c/g)], 0 when there is none. *)
Fixpoint countChar (c : ascii) (s : string) : nat :=
  match s with
  | EmptyString => 0%nat
  | String d s' => ((if Ascii.eqb d c then 1 else 0) + countChar c s')%nat
  end.

(** Template-literal rendering of a non-negative integer. *)
Definition showNat (n : nat) : string := NilZero.string_of_uint (Nat.to_uint n).

(** *** Numbers read from strings *)

(** The longest prefix of decimal digits and what follows it. *)
Fixpoint spanDigits (s : string) : string * string :=
  match s with
  | String c s' =>
      if isDigit c then let '(ds, rest) := spanDigits s' in (String c ds, rest)
      else (EmptyString, s)
  | EmptyString => (EmptyString, EmptyString)
  end.

Fixpoint digitsValue (acc : Z) (ds : string) : Z :=
  match ds with
  | String c ds' => digitsValue (10 * acc + digitValue c) ds'
  | EmptyString => acc
  end.

(** An optional sign: the factor and the rest. *)
Definition spanSign (s : string) : Z * string :=
  match s with
  | String c s' =>
      if Ascii.eqb c "-"%char then (-1, s')
      else if Ascii.eqb c "+"%char then (1, s')
      else (1, s)
  | EmptyString => (1, s)
  end.

(** [parseInt(s, 10)]; [None] is NaN. *)
Definition parseInt (s : string) : option Z :=
  let '(sign, s1) := spanSign (trimStart s) in
  let '(ds, _) := spanDigits s1 in
  match ds with
  | EmptyString => None
  | _ => Some (sign * digitsValue 0 ds)
  end.

(** [parseInt(undefined, 10)] reads the string [undefined], which has no digit. *)
Definition parseIntOpt (s : option string) : option Z :=
  match s with Some s => parseInt s | None => None end.

Inductive number : Type :=
| NaN
| Infinity (negative : bool)
| Finite (q : Q).

Definition isPrefix (p s : string) : bool := String.prefix p s.

(** The exponent part [e], [e+] or [e-] followed by digits; 0 when absent. *)
Definition spanExponent (s : string) : Z :=
  match s with
  | String c s' =>
      if Ascii.eqb c "e"%char || Ascii.eqb c "E"%char then
        let '(sign, s1) := spanSign s' in
        let '(ds, _) := spanDigits s1 in
        match ds with
        | EmptyString => 0
        | _ => sign * digitsValue 0 ds
        end
      else 0
  | EmptyString => 0
  end.

(** [parseFloat(s)]: the longest prefix that is a StrDecimalLiteral. *)
Definition parseFloat (s : string) : number :=
  let '(sign, s1) := spanSign (trimStart s) in
  if isPrefix "Infinity" s1 then Infinity (sign <? 0)
  else
    let '(ip, r1) := spanDigits s1 in
    let '(fp, r2) :=
      match r1 with
      | String c r =>
          if Ascii.eqb c "."%char then spanDigits r else (EmptyString, r1)
      | EmptyString => (EmptyString, r1)
      end in
    match ip, fp with
    | EmptyString, EmptyString => NaN
    | _, _ =>
        let mantissa := digitsValue 0 (ip +:+ fp) in
        let exponent := spanExponent r2 - Z.of_nat (String.length fp) in
        Finite (inject_Z (sign * mantissa) * Qpower (inject_Z 10) exponent)%Q
    end.

(** [x || 0] on the result of [parseInt]. *)
Definition orZero (x : option Z) : Z :=
  match x with Some z => z | None => 0 end.

(** [x || 0] on a number: NaN and zero are falsy. *)
Definition orZeroNumber (x : number) : number :=
  match x with
  | NaN => Finite 0
  | Infinity _ => x
  | Finite q => if Qeq_bool q 0 then Finite 0 else x
  end.

(** *** Date

    A Date object of the source holds a time value or, as Invalid Date, NaN.
    The constructor ends with TimeClip, which turns a time value more than
    100,000,000 days away from the epoch into NaN.  A [Date] holds the time
    value before that step, and [isInvalidDate] is the test of TimeClip: a
    [Date] on which it holds stands for the Invalid Date of the source, and
    the methods below are those of the source on the others.  The time
    values of the embedding are local, so the limit is the one of the source
    where local time is UTC; elsewhere it is displaced by the zone offset. *)

Record Date : Type := mkDate { localMs : Z }.

(** TimeClip: [None] is NaN. *)
Definition TimeClip (time : Z) : option Z :=
  if 8640000000000000 <? Z.abs time then None else Some time.

Definition isInvalidDate (d : Date) : bool :=
  match TimeClip (localMs d) with
  | None => true
  | Some _ => false
  end.

Definition msPerMinute : Z := 60000.
Definition msPerHour : Z := 3600000.
Definition msPerDay : Z := 86400000.

Definition getTime (d : Date) : Z := localMs d.
Definition getDay (d : Date) : Z := (localMs d / msPerDay + 4) mod 7.
Definition getHours (d : Date) : Z := (localMs d mod msPerDay) / msPerHour.
Definition getMinutes (d : Date) : Z := (localMs d mod msPerHour) / msPerMinute.

(** Day number of the first day of month [m] (0-based) of year [y], counted
    from 1970-01-01, in the proleptic Gregorian calendar. *)
Definition dayFromYearMonth (y m : Z) : Z :=
  let y' := if m <? 2 then y - 1 else y in
  let era := y' / 400 in
  let yoe := y' - era * 400 in
  let mp := (m + 10) mod 12 in
  let doy := (153 * mp + 2) / 5 in
  let doe := yoe * 365 + yoe / 4 - yoe / 100 + doy in
  era * 146097 + doe - 719468.

(** MakeDay of ECMAScript: months outside 0..11 carry into the year, and
    the day of the month is added as an offset. *)
Definition MakeDay (year month date : Z) : Z :=
  let ym := year + month / 12 in
  let mn := month mod 12 in
  dayFromYearMonth ym mn + date - 1.

(** [new Date(year, month, day, hour, minute)]: a year in 0..99 means
    1900 + year.  The result is an Invalid Date when [isInvalidDate] holds
    on it. *)
Definition newDate (year month day hour minute : Z) : Date :=
  let yr := if (0 <=? year) && (year <=? 99) then 1900 + year else year in
  mkDate (MakeDay yr month day * msPerDay + hour * msPerHour + minute * msPerMinute).

(** [d.setDate(d.getDate() + n)] and [d.setHours(0, 0, 0, 0)]. *)
Definition addDays (d : Date) (n : Z) : Date := mkDate (localMs d + n * msPerDay).
Definition startOfDay (d : Date) : Date := mkDate (localMs d / msPerDay * msPerDay).

End JS.

(** ** types.ts *)

Module Types.
Import JS.

(** [ScheduleEvent], with the two transient layout fields that
    [eventsByDay] writes on the event objects. *)
Record ScheduleEvent : Type := mkEvent {
  id : string;
  start : Date;
  end_ : Date;
  title : string;
  description : string;
  capacity : Z;
  total : Z;
  waiting : Z;
  price : number;
  color : string;
  colIndex : option nat;
  totalCols : option nat
}.

End Types.

(** ** App.tsx *)

Module App.
Import JS Types.

(** *** parseDate: the format [D/M/YYYY H:mm]

    The caller passes the second piece of a white-space split, which is
    [undefined] when the field has a single piece; [timeStr.split] then
    raises a TypeError. *)
Definition parseDate (dateStr : string) (timeStr : option string) : throws (option Date) :=
  let dateParts := split "/" dateStr in
  match timeStr with
  | None => throw (TypeError undefinedSplit)
  | Some timeStr =>
      let timeParts := split ":" timeStr in
      if ((length dateParts =? 3) && (length timeParts =? 2))%nat then
        let day := parseIntOpt (dateParts !! 0%nat) in
        let month := (fun m => m - 1) <$> parseIntOpt (dateParts !! 1%nat) in
        let year := parseIntOpt (dateParts !! 2%nat) in
        let hour := parseIntOpt (timeParts !! 0%nat) in
        let minute := parseIntOpt (timeParts !! 1%nat) in
        match day, month, year, hour, minute with
        | Some day, Some month, Some year, Some hour, Some minute =>
            mret (Some (newDate year month day hour minute))
        | _, _, _, _, _ => mret None
        end
      else mret None
  end.

Definition COLORS : list string :=
  [ "bg-rose-200 border-rose-300";
    "bg-amber-200 border-amber-300";
    "bg-lime-200 border-lime-300";
    "bg-emerald-200 border-emerald-300";
    "bg-cyan-200 border-cyan-300";
    "bg-violet-200 border-violet-300";
    "bg-fuchsia-200 border-fuchsia-300";
    "bg-sky-200 border-sky-300" ].

Definition TEXT_COLORS : list string :=
  [ "text-rose-800";
    "text-amber-800";
    "text-lime-800";
    "text-emerald-800";
    "text-cyan-800";
    "text-violet-800";
    "text-fuchsia-800";
    "text-sky-800" ].

Record Color : Type := mkColor { bg : string; text : string }.

(** The palette entry [{ bg: COLORS[index], text: TEXT_COLORS[index] }]. *)
Definition paletteEntry (index : nat) : Color :=
  {| bg := COLORS !!! index; text := TEXT_COLORS !!! index |}.

(** [getColor]: the map is threaded through, as the source mutates it. *)
Definition getColor (title : string) (colorMap : gmap string Color)
  : throws (Color * gmap string Color) :=
  let colorMap' :=
    match colorMap !! title with
    | Some _ => colorMap
    | None =>
        let index := (size colorMap mod length COLORS)%nat in
        <[title := paletteEntry index]> colorMap
    end in
  match colorMap' !! title with
  | Some color => mret (color, colorMap')
  | None => throw (Error ("Color not found for title: " +:+ title))
  end.

(** *** parseCSV *)

(** The inner loop over the code units of one physical line. *)
Fixpoint csvLine (line : string) (currentRow : list string) (currentField : string)
  (insideQuotes : bool) : list string * string * bool :=
  match line with
  | EmptyString => (currentRow, currentField, insideQuotes)
  | String char rest =>
      if Ascii.eqb char quote then
        match rest with
        | String next rest' =>
            if insideQuotes && Ascii.eqb next quote
            then csvLine rest' currentRow (currentField +:+ String quote EmptyString) insideQuotes
            else csvLine rest currentRow currentField (negb insideQuotes)
        | EmptyString => csvLine rest currentRow currentField (negb insideQuotes)
        end
      else if Ascii.eqb char ","%char && negb insideQuotes then
        csvLine rest (currentRow ++ [trim currentField]) EmptyString insideQuotes
      else csvLine rest currentRow (currentField +:+ String char EmptyString) insideQuotes
  end.

Definition nonEmpty (field : string) : bool := (0 <? String.length field)%nat.

(** The outer loop over the physical lines. *)
Fixpoint csvLines (lines : list string) (result : list (list string))
  (currentRow : list string) (currentField : string) (insideQuotes : bool)
  : list (list string) :=
  match lines with
  | [] =>
      if (0 <? length currentRow)%nat || nonEmpty currentField
      then result ++ [currentRow ++ [trim currentField]]
      else result
  | line :: more =>
      let '(currentRow, currentField, insideQuotes) :=
        csvLine line currentRow currentField insideQuotes in
      if negb insideQuotes then
        let currentRow := currentRow ++ [trim currentField] in
        let result := if existsb nonEmpty currentRow then result ++ [currentRow] else result in
        csvLines more result [] EmptyString insideQuotes
      else
        csvLines more result currentRow (currentField +:+ String newline EmptyString) insideQuotes
  end.

Definition parseCSV (text : string) : list (list string) :=
  csvLines (split newline text) [] [] EmptyString false.

(** *** detectFormat *)

Inductive Format : Type := csv | tsv.

(** [text.split("\n")[0]]; a split is never empty. *)
Definition firstLine (text : string) : string :=
  default EmptyString (split newline text !! 0%nat).

Definition detectFormat (text : string) : Format :=
  let firstLine := firstLine text in
  let commaCount := countChar ","%char firstLine in
  let tabCount := countChar tab firstLine in
  if (tabCount <? commaCount)%nat then csv else tsv.

(** The rows handed to the decoder: parsed in the detected dialect, rows
    without a non-empty cell removed. *)
Definition parseRows (rawData : string) : list (list string) :=
  let parsedRows :=
    match detectFormat rawData with
    | csv => parseCSV rawData
    | tsv => map (fun line => map trim (split tab line)) (split newline rawData)
    end in
  List.filter (existsb nonEmpty) parsedRows.

(** *** handleGenerate *)

Inductive InputMode : Type := text_mode | file_mode.

(** What the handler reads: the mode, the content of the selected file when
    there is one, and the pasted text. *)
Record Inputs : Type := mkInputs {
  inputMode : InputMode;
  selectedFile : option string;
  inputData : string
}.

(** The part of the component state the handler writes. *)
Record AppState : Type := mkState {
  events : list ScheduleEvent;
  error : option string;
  currentWeekStart : option Date
}.

Definition byStart (a b : ScheduleEvent) : Z :=
  getTime (start a) - getTime (start b).

(** Monday 00:00 of the week of [d]. *)
Definition mondayOf (d : Date) : Date :=
  let dayOfWeek := getDay d in
  let offset := if dayOfWeek =? 0 then 6 else dayOfWeek - 1 in
  startOfDay (addDays d (- offset)).

Section Decoder.

(** The text that [Date.prototype.toISOString] gives for a valid date
    depends on the zone offset, which the embedding leaves open; only the
    event identifier is built from it. *)
Variable toISOString : Date -> string.

(** [date.toISOString()]: a RangeError on an Invalid Date. *)
Definition toISOStringOf (date : Date) : throws string :=
  if isInvalidDate date then throw (RangeError invalidTimeValue)
  else mret (toISOString date).

Definition notEnoughColumns (index found : nat) : string :=
  "Row " +:+ showNat (index + 2) +:+ ": Not enough columns. Expected 8, found "
  +:+ showNat found +:+ ".".

Definition invalidDateTime (index : nat) (field0 field1 : string) : string :=
  "Row " +:+ showNat (index + 2) +:+ ": Invalid date/time format in "
  +:+ String quote field0 +:+ String quote " or "
  +:+ String quote field1 +:+ String quote ".".

(** The callback of [dataRows.map], with the colour map threaded through.
    An Invalid Date is truthy: it passes the test [!start || !end], and the
    row fails only when [start.toISOString()] is evaluated for the
    identifier.  An Invalid Date in [end] is stored as it is. *)
Definition decodeRow (index : nat) (columns : list string) (colorMap : gmap string Color)
  : throws (ScheduleEvent * gmap string Color) :=
  if (length columns <? 8)%nat then
    throw (Error (notEnoughColumns index (length columns)))
  else
    let startParts := splitSpaces false (columns !!! 0%nat) in
    let endParts := splitSpaces false (columns !!! 1%nat) in
    start ← parseDate (startParts !!! 0%nat) (startParts !! 1%nat);
    end_ ← parseDate (endParts !!! 0%nat) (endParts !! 1%nat);
    match start, end_ with
    | Some start, Some end_ =>
        let title := columns !!! 2%nat in
        '(c, colorMap) ← getColor title colorMap;
        iso ← toISOStringOf start;
        mret ({| id := iso +:+ "-" +:+ title +:+ "-" +:+ showNat index;
                 start := start;
                 end_ := end_;
                 title := title;
                 description := columns !!! 3%nat;
                 capacity := orZero (parseInt (columns !!! 4%nat));
                 total := orZero (parseInt (columns !!! 5%nat));
                 waiting := orZero (parseInt (columns !!! 6%nat));
                 price := orZeroNumber (parseFloat (columns !!! 7%nat));
                 color := bg c +:+ " " +:+ text c;
                 colIndex := None;
                 totalCols := None |}, colorMap)
    | _, _ =>
        throw (Error (invalidDateTime index (columns !!! 0%nat) (columns !!! 1%nat)))
    end.

(** [dataRows.map] from data-row index [index] on: the first row that throws
    ends the decode. *)
Fixpoint decodeRows (index : nat) (dataRows : list (list string))
  (colorMap : gmap string Color) : throws (list ScheduleEvent * gmap string Color) :=
  match dataRows with
  | [] => mret ([], colorMap)
  | columns :: more =>
      '(event, colorMap) ← decodeRow index columns colorMap;
      '(rest, colorMap) ← decodeRows (S index) more colorMap;
      mret (event :: rest, colorMap)
  end.

(** [.filter((e) => e.start && e.end)]: a Date object is truthy. *)
Definition hasStartAndEnd (e : ScheduleEvent) : bool := true.

(** The decode of a batch, from a fresh colour map. *)
Definition decode (dataRows : list (list string)) : throws (list ScheduleEvent) :=
  '(parsedEvents, _) ← decodeRows 0 dataRows ∅;
  mret (List.filter hasStartAndEnd parsedEvents).

(** [processFile] rejects an empty content. *)
Definition processFile (content : string) : throws string :=
  match content with
  | EmptyString => throw (Error "Failed to read file content")
  | _ => mret content
  end.

(** The raw data of the selected mode; [None] when neither branch applies. *)
Definition readInput (inp : Inputs) : option (throws string) :=
  match inputMode inp, selectedFile inp with
  | file_mode, Some content => Some (processFile content)
  | text_mode, _ =>
      match trim (inputData inp) with
      | EmptyString => None
      | trimmed => Some (mret trimmed)
      end
  | file_mode, None => None
  end.

(** The body of the [try]: an exception, a message set before an early
    [return], or the decoded events. *)
Definition generate (inp : Inputs) : throws (string + list ScheduleEvent) :=
  match readInput inp with
  | None =>
      mret (inl "Please provide schedule data either by uploading a file or pasting text.")
  | Some rawData =>
      rawData ← rawData;
      let parsedRows := parseRows rawData in
      if (length parsedRows <? 2)%nat then
        mret (inl "File must contain at least a header row and one data row.")
      else
        parsedEvents ← decode (drop 1 parsedRows);
        mret (inr parsedEvents)
  end.

Definition handleGenerate (inp : Inputs) (st : AppState) : AppState :=
  match generate inp with
  | inr (inl msg) =>
      {| events := events st; error := Some msg; currentWeekStart := currentWeekStart st |}
  | inr (inr parsedEvents) =>
      let sorted := sort byStart parsedEvents in
      {| events := sorted;
         error := None;
         currentWeekStart :=
           match sorted with
           | first :: _ => Some (mondayOf (start first))
           | [] => currentWeekStart st
           end |}
  | inl e =>
      {| events := [];
         error := Some ("Failed to parse data: " +:+ message e);
         currentWeekStart := None |}
  end.

End Decoder.

(** [currentWeekEvents]: the events handed to the Schedule component. *)
Definition currentWeekEvents (st : AppState) : list ScheduleEvent :=
  match currentWeekStart st with
  | None => []
  | Some weekStart =>
      let weekEnd := addDays weekStart 7 in
      List.filter (fun event =>
        (getTime weekStart <=? getTime (start event))
        && (getTime (start event) <? getTime weekEnd)) (events st)
  end.

(** *** updateEvent, deleteEvent, createNewEvent *)

Definition updateEvent (updatedEvent : ScheduleEvent) (st : AppState) : AppState :=
  {| events :=
       map (fun e => if String.eqb (id e) (id updatedEvent) then updatedEvent else e)
         (events st);
     error := error st;
     currentWeekStart := currentWeekStart st |}.

Definition deleteEvent (eventId : string) (st : AppState) : AppState :=
  {| events := List.filter (fun e => negb (String.eqb (id e) eventId)) (events st);
     error := error st;
     currentWeekStart := currentWeekStart st |}.

(** [for (const event of events) getColor(event.title, colorMap)]. *)
Fixpoint seedColors (events : list ScheduleEvent) (colorMap : gmap string Color)
  : throws (gmap string Color) :=
  match events with
  | [] => mret colorMap
  | event :: more =>
      '(_, colorMap) ← getColor (title event) colorMap;
      seedColors more colorMap
  end.

(** [{ ...newEvent, color }]. *)
Definition withColor (event : ScheduleEvent) (color : string) : ScheduleEvent :=
  {| id := id event; start := start event; end_ := end_ event;
     title := title event; description := description event;
     capacity := capacity event; total := total event;
     waiting := waiting event; price := price event; color := color;
     colIndex := colIndex event; totalCols := totalCols event |}.

Definition createNewEvent (newEvent : ScheduleEvent) (st : AppState) : throws AppState :=
  colorMap ← seedColors (events st) ∅;
  '(c, _) ← getColor (title newEvent) colorMap;
  mret {| events := events st ++ [withColor newEvent (bg c +:+ " " +:+ text c)];
          error := error st;
          currentWeekStart := currentWeekStart st |}.

(** *** handleWeekChange (the revision of the component with week buttons) *)

Inductive Direction : Type := dir_next | dir_prev.

Definition handleWeekChange (direction : Direction) (st : AppState) : AppState :=
  match currentWeekStart st with
  | Some weekStart =>
      let offset := match direction with dir_next => 7 | dir_prev => -7 end in
      {| events := events st;
         error := error st;
         currentWeekStart := Some (addDays weekStart offset) |}
  | None => st
  end.

End App.

(** ** components/Schedule.tsx (revision with collapsed gaps) *)

Module Schedule.
Import JS Types.

Definition HOUR_HEIGHT : Q := 60.
Definition CALENDAR_START_HOUR : Z := 6.
Definition CALENDAR_END_HOUR : Z := 23.
Definition GAP_MARKER_HEIGHT : Q := 16.
Definition MIN_COLLAPSIBLE_GAP_MINUTES : Z := 60.

(** *** EventModal.handleSave *)

(** [Partial<ScheduleEvent>]: the fields the form reads, each possibly absent. *)
Record FormData : Type := mkForm {
  form_id : option string;
  form_title : option string;
  form_start : option Date;
  form_end : option Date;
  form_description : option string
}.

Inductive SaveOutcome : Type :=
| Alerted (msg : string)
| Saved (formData : FormData)
| Ignored.

Definition handleSave (formData : option FormData) : SaveOutcome :=
  match formData with
  | None => Ignored
  | Some formData =>
      match form_title formData, form_start formData, form_end formData with
      | Some (String _ _), Some start, Some end_ =>
          if getTime end_ <=? getTime start
          then Alerted "End time must be after start time."
          else Saved formData
      | _, _, _ => Alerted "Title, start time, and end time are required."
      end
  end.

(** *** The visible window *)

Definition minutesOfDay (date : Date) : Z := getHours date * 60 + getMinutes date.

(** [Math.floor(m / 60) * 60] and [Math.ceil(m / 60) * 60] on integers. *)
Definition floorHour (m : Z) : Z := m / 60 * 60.
Definition ceilHour (m : Z) : Z := - (- m / 60) * 60.

(** One turn of the scan for the earliest start and the latest end. *)
Definition widen (bounds : Z * Z) (e : ScheduleEvent) : Z * Z :=
  let '(minStart, maxEnd) := bounds in
  let s := minutesOfDay (start e) in
  let en := minutesOfDay (end_ e) in
  (if s <? minStart then s else minStart, if maxEnd <? en then en else maxEnd).

(** [(visibleStartMin, visibleEndMin)].  The scan starts from infinite
    bounds, which its first turn replaces by the minutes of the first event. *)
Definition visibleWindow (events : list ScheduleEvent) : Z * Z :=
  match events with
  | [] => (CALENDAR_START_HOUR * 60, CALENDAR_END_HOUR * 60)
  | e :: rest =>
      let '(minStart, maxEnd) :=
        foldl widen (minutesOfDay (start e), minutesOfDay (end_ e)) rest in
      (Z.max 0 (floorHour minStart), Z.min (24 * 60) (ceilHour maxEnd))
  end.

(** *** The union of the busy intervals *)

Module Interval.
Record t : Type := mk { start : Z; end_ : Z }.
End Interval.

Definition clipped (visibleStartMin visibleEndMin : Z) (e : ScheduleEvent)
  : list Interval.t :=
  let start := Z.max visibleStartMin (minutesOfDay (Types.start e)) in
  let end_ := Z.min visibleEndMin (minutesOfDay (Types.end_ e)) in
  if start <? end_ then [Interval.mk start end_] else [].

Definition byIntervalStart (a b : Interval.t) : Z := Interval.start a - Interval.start b.

(** One turn of the merge loop: push a copy, or extend the last interval. *)
Definition mergeStep (merged : list Interval.t) (iv : Interval.t) : list Interval.t :=
  match last merged with
  | None => merged ++ [iv]
  | Some lst =>
      if Interval.end_ lst <? Interval.start iv then merged ++ [iv]
      else <[pred (length merged) :=
               Interval.mk (Interval.start lst)
                 (Z.max (Interval.end_ lst) (Interval.end_ iv))]> merged
  end.

Definition unionIntervals (events : list ScheduleEvent)
  (visibleStartMin visibleEndMin : Z) : list Interval.t :=
  let intervals := flat_map (clipped visibleStartMin visibleEndMin) events in
  foldl mergeStep [] (sort byIntervalStart intervals).

(** *** The timeline segments *)

Module Segment.
Inductive kind : Type := visible | gap.
Record t : Type := mk { type : kind; start : Z; end_ : Z; height : Q }.
End Segment.

(** [(minutes / 60) * HOUR_HEIGHT], in exact rationals.  The source rounds
    the quotient and the product to doubles: the value may differ from the
    rational in the last place, so what is stated of these heights is where
    the formula is used and how its values are ordered, not what number of
    pixels they are. *)
Definition scaled (minutes : Z) : Q := (inject_Z minutes / 60 * HOUR_HEIGHT)%Q.

(** What the loop pushes between [cur] and [next]. *)
Definition between (cur next : Interval.t) : list Segment.t :=
  let gapStart := Interval.end_ cur in
  let gapEnd := Interval.start next in
  let gapMinutes := gapEnd - gapStart in
  if 0 <? gapMinutes then
    if MIN_COLLAPSIBLE_GAP_MINUTES <=? gapMinutes
    then [Segment.mk Segment.gap gapStart gapEnd GAP_MARKER_HEIGHT]
    else [Segment.mk Segment.visible gapStart gapEnd (scaled gapMinutes)]
  else [].

(** The loop over the merged intervals. *)
Fixpoint walk (intervals : list Interval.t) : list Segment.t :=
  match intervals with
  | [] => []
  | cur :: rest =>
      Segment.mk Segment.visible (Interval.start cur) (Interval.end_ cur)
        (scaled (Interval.end_ cur - Interval.start cur))
      :: match rest with
         | [] => []
         | next :: _ => between cur next ++ walk rest
         end
  end.

Definition segments (visibleStartMin visibleEndMin : Z)
  (unionIntervals : list Interval.t) : list Segment.t :=
  if visibleEndMin <=? visibleStartMin then []
  else
    match unionIntervals with
    | [] =>
        [Segment.mk Segment.visible visibleStartMin visibleEndMin
           (scaled (visibleEndMin - visibleStartMin))]
    | _ => walk unionIntervals
    end.

Definition totalHeight (segments : list Segment.t) : Q :=
  foldl (fun acc s => (acc + Segment.height s)%Q) 0%Q segments.

(** *** mapMinToY *)

(** The loop over the segments, from the offset [y] accumulated so far. *)
Fixpoint accumulate (segments : list Segment.t) (clamped : Z) (y : Q) : Q :=
  match segments with
  | [] => y
  | seg :: rest =>
      if clamped <? Segment.start seg then y
      else if Segment.end_ seg <=? clamped
      then accumulate rest clamped (y + Segment.height seg)%Q
      else
        match Segment.type seg with
        | Segment.visible => (y + scaled (clamped - Segment.start seg))%Q
        | Segment.gap => (y + 0)%Q
        end
  end.

Definition mapMinToY (visibleStartMin visibleEndMin : Z) (segments : list Segment.t)
  (absMin : Z) : Q :=
  let clamped := Z.max visibleStartMin (Z.min absMin visibleEndMin) in
  accumulate segments clamped 0%Q.

(** *** The values the component derives from its [events] *)

Record Timeline : Type := mkTimeline {
  visibleStartMin : Z;
  visibleEndMin : Z;
  merged : list Interval.t;
  segs : list Segment.t
}.

Definition timeline (events : list ScheduleEvent) : Timeline :=
  let '(vs, ve) := visibleWindow events in
  let u := unionIntervals events vs ve in
  {| visibleStartMin := vs; visibleEndMin := ve; merged := u; segs := segments vs ve u |}.

(** [mapMinToY] as the component closes it over its window and segments. *)
Definition mapMinToYOf (events : list ScheduleEvent) (absMin : Z) : Q :=
  let tl := timeline events in
  mapMinToY (visibleStartMin tl) (visibleEndMin tl) (segs tl) absMin.

Record Position : Type := mkPosition { top : Q; height : Q; dayIndex : Z }.

Definition getEventPosition (events : list ScheduleEvent) (event : ScheduleEvent)
  : Position :=
  let startMin := minutesOfDay (start event) in
  let endMin := minutesOfDay (end_ event) in
  let top := mapMinToYOf events startMin in
  let mappedEnd := mapMinToYOf events endMin in
  let height := if Qle_bool 20 (mappedEnd - top) then (mappedEnd - top)%Q else 20%Q in
  let dayIndex := getDay (start event) - 1 in
  let dayIndex := if dayIndex =? -1 then 6 else dayIndex in
  {| top := top; height := height; dayIndex := dayIndex |}.

(** *** eventsByDay: grouping and column packing *)

(** The two assignments [event.colIndex = colIndex; event.totalCols = totalCols]. *)
Definition setLayout (event : ScheduleEvent) (ci tc : nat) : ScheduleEvent :=
  {| id := id event; start := start event; end_ := end_ event;
     title := title event; description := description event;
     capacity := capacity event; total := total event;
     waiting := waiting event; price := price event; color := color event;
     colIndex := Some ci; totalCols := Some tc |}.

Definition byStart (a b : ScheduleEvent) : Z :=
  getTime (start a) - getTime (start b).

(** One turn of [dayEvents.forEach]: the first column whose last event ends
    no later than [event] starts receives it, otherwise a new column is
    pushed.  The result carries the index of the receiving column.  [None]
    is the TypeError of [col[col.length - 1].end] on an empty column. *)
Fixpoint placeEvent (columns : list (list ScheduleEvent)) (event : ScheduleEvent)
  : option (nat * list (list ScheduleEvent)) :=
  match columns with
  | [] => Some (0%nat, [[event]])
  | col :: rest =>
      lst ← last col;
      if getTime (end_ lst) <=? getTime (start event)
      then Some (0%nat, (col ++ [event]) :: rest)
      else '(i, rest') ← placeEvent rest event; Some (S i, col :: rest')
  end.

Fixpoint placeAll (columns : list (list ScheduleEvent)) (sorted : list ScheduleEvent)
  : option (list nat * list (list ScheduleEvent)) :=
  match sorted with
  | [] => Some ([], columns)
  | event :: more =>
      '(i, columns1) ← placeEvent columns event;
      '(idxs, columns2) ← placeAll columns1 more;
      Some (i :: idxs, columns2)
  end.

(** The columns built for one day. *)
Definition packColumns (dayEvents : list ScheduleEvent)
  : option (list (list ScheduleEvent)) :=
  snd <$> placeAll [] (sort byStart dayEvents).

(** The day list after the pass: sorted, every event carrying the index of
    its column and the number of columns. *)
Definition layoutDay (dayEvents : list ScheduleEvent) : option (list ScheduleEvent) :=
  let sorted := sort byStart dayEvents in
  '(idxs, columns) ← placeAll [] sorted;
  Some (zip_with (fun event i => setLayout event i (length columns)) sorted idxs).

(** [grouped[dayIndex].push(event)] when [grouped[dayIndex]] exists. *)
Definition groupStep (events : list ScheduleEvent) (grouped : list (list ScheduleEvent))
  (event : ScheduleEvent) : list (list ScheduleEvent) :=
  let d := dayIndex (getEventPosition events event) in
  if (0 <=? d) && (d <? 7) then alter (fun l => l ++ [event]) (Z.to_nat d) grouped
  else grouped.

Definition groupByDay (events : list ScheduleEvent) : list (list ScheduleEvent) :=
  foldl (groupStep events) (replicate 7 []) events.

Definition eventsByDay (events : list ScheduleEvent) : option (list (list ScheduleEvent)) :=
  mapM layoutDay (groupByDay events).

(** *** visibleDayIndices *)

Definition hasEvents (eventsByDay : list (list ScheduleEvent)) (d : nat) : bool :=
  (0 <? length (default [] (eventsByDay !! d)))%nat.

Definition visibleDayIndices (eventsByDay : list (list ScheduleEvent)) : list nat :=
  [0; 1; 2; 3; 4]%nat
  ++ (if hasEvents eventsByDay 5 then [5%nat] else [])
  ++ (if hasEvents eventsByDay 6 then [6%nat] else []).

(** *** The hour rows of a visible segment *)

(** The loop [while (p < seg.end)], which moves [p] to the next full hour
    or to the end of the segment: the values of [blockMin], the minutes of
    the rows it pushes. *)
Equations? hourBlocks (p end_ : Z) : list Z by wf (Z.to_nat (end_ - p)) lt :=
  hourBlocks p end_ with Z_lt_dec p end_ => {
    | left _ =>
        let nextBoundary := Z.min end_ (p / 60 * 60 + 60) in
        let blockMin := Z.max 0 (nextBoundary - p) in
        blockMin :: hourBlocks nextBoundary end_;
    | right _ => [] }.
Proof.
  subst nextBoundary.
  pose proof (Z.div_mod p 60 ltac:(lia)). pose proof (Z.mod_pos_bound p 60 ltac:(lia)).
  lia.
Qed.

(** The heights [(blockMin / 60) * HOUR_HEIGHT] of the rows. *)
Definition hourRows (p end_ : Z) : list Q := map scaled (hourBlocks p end_).

(** *** handleModalSave *)

(** [{ ...eventToSave, id }]. *)
Definition withId (event : ScheduleEvent) (newId : string) : ScheduleEvent :=
  {| id := newId; start := start event; end_ := end_ event;
     title := title event; description := description event;
     capacity := capacity event; total := total event;
     waiting := waiting event; price := price event; color := color event;
     colIndex := colIndex event; totalCols := totalCols event |}.

(** The handler hands the event to one of the two callbacks of the
    component; [now] is the value of [Date.now()].  An absent identifier and
    an empty one take the same branch, and are both the empty string here. *)
Definition handleModalSave {R : Type} (onEventUpdate onEventCreate : ScheduleEvent -> R)
  (now : nat) (eventToSave : ScheduleEvent) : R :=
  if negb (String.eqb (id eventToSave) EmptyString)
     && negb (isPrefix "new-" (id eventToSave))
  then onEventUpdate eventToSave
  else onEventCreate (withId eventToSave ("new-" +:+ showNat now)).

End Schedule.

(** * Notions used in the statements *)

Module Notions.
Import JS Types App Schedule.

(** *** Sorting by a key *)

(** The order of the keys. *)
Definition key_le {A : Type} (key : A -> Z) (a b : A) : Prop := key a <= key b.

(** *** Events in time *)

Definition startOf (e : ScheduleEvent) : Z := getTime (start e).
Definition endOf (e : ScheduleEvent) : Z := getTime (end_ e).

(** The time ranges of [a] and [b] overlap. *)
Definition overlaps (a b : ScheduleEvent) : Prop :=
  startOf a < endOf b /\ startOf b < endOf a.

(** [e] is running at instant [t]: from its start up to, and not including,
    its end. *)
Definition covers (t : Z) (e : ScheduleEvent) : bool :=
  (startOf e <=? t) && (t <? endOf e).

(** Number of events of [l] running at instant [t]. *)
Fixpoint simultaneous (t : Z) (l : list ScheduleEvent) : nat :=
  match l with
  | [] => 0
  | e :: l' => (if covers t e then 1 else 0) + simultaneous t l'
  end.

Definition positiveEvent (e : ScheduleEvent) : Prop := startOf e < endOf e.
Definition precedes (a b : ScheduleEvent) : Prop := endOf a <= startOf b.

(** A well-formed column: not empty, its events of positive duration and following one
    another. *)
Definition goodColumn (col : list ScheduleEvent) : Prop :=
  col <> [] /\ StronglySorted precedes col /\ Forall positiveEvent col.

(** The state of the packing after the events [placed]: well-formed columns
    that hold exactly those events, at most as many as run together at some
    instant. *)
Definition packed (columns : list (list ScheduleEvent)) (placed : list ScheduleEvent)
  : Prop :=
  Forall goodColumn columns
  /\ concat columns ≡ₚ placed
  /\ exists t, (length columns <= simultaneous t placed)%nat.

(** The events of [sorted] that were given the column index [c], in order. *)
Fixpoint pick (c : nat) (sorted : list ScheduleEvent) (idxs : list nat)
  : list ScheduleEvent :=
  match sorted, idxs with
  | e :: sorted', i :: idxs' =>
      if (i =? c)%nat then e :: pick c sorted' idxs' else pick c sorted' idxs'
  | _, _ => []
  end.

(** The position in [pick c] of the event at position [k]. *)
Fixpoint rank (c : nat) (idxs : list nat) (k : nat) : nat :=
  match k, idxs with
  | S k', i :: idxs' => ((if (i =? c)%nat then 1 else 0) + rank c idxs' k')%nat
  | _, _ => 0%nat
  end.

(** *** Intervals and segments *)

Definition positiveInterval (iv : Interval.t) : Prop :=
  Interval.start iv < Interval.end_ iv.

(** [a] ends strictly before [b] starts. *)
Definition apart (a b : Interval.t) : Prop := Interval.end_ a < Interval.start b.

(** The invariant of the merge loop. *)
Definition separated (merged : list Interval.t) : Prop :=
  StronglySorted apart merged /\ Forall positiveInterval merged.

(** What [accumulate] needs of a segment: a height that is not negative and,
    for a visible one, not below the scaled length. *)
Definition sound (seg : Segment.t) : Prop :=
  (0 <= Segment.height seg)%Q
  /\ (Segment.type seg = Segment.visible ->
      (scaled (Segment.end_ seg - Segment.start seg) <= Segment.height seg)%Q).

(** The segment pushed for a merged interval. *)
Definition busy (iv : Interval.t) : Segment.t :=
  Segment.mk Segment.visible (Interval.start iv) (Interval.end_ iv)
    (scaled (Interval.end_ iv - Interval.start iv)).

(** The segment pushed for an idle stretch of positive length. *)
Definition idle (cur next : Interval.t) : Segment.t :=
  let minutes := Interval.start next - Interval.end_ cur in
  if 60 <=? minutes
  then Segment.mk Segment.gap (Interval.end_ cur) (Interval.start next) GAP_MARKER_HEIGHT
  else Segment.mk Segment.visible (Interval.end_ cur) (Interval.start next) (scaled minutes).

(** *** Days *)

(** The day column of an event: Monday is 0, Sunday is 6. *)
Definition dayOf (e : ScheduleEvent) : Z :=
  let d := getDay (start e) - 1 in if d =? -1 then 6 else d.

(** The events of day [d], in the order of the input. *)
Definition onDay (d : nat) (l : list ScheduleEvent) : list ScheduleEvent :=
  List.filter (fun e => dayOf e =? Z.of_nat d) l.

(** *** Texts and fields *)

(** A text made of a first line without line break and, possibly, a line
    break followed by the rest. *)
Definition withRest (line : string) (rest : option string) : string :=
  match rest with
  | None => line
  | Some r => line +:+ String newline r
  end.

(** The date/time check of the decoder on one field: split at white space,
    hand the first two pieces to [parseDate]. *)
Definition readField (field : string) : throws (option Date) :=
  let parts := splitSpaces false field in
  parseDate (parts !!! 0%nat) (parts !! 1%nat).

(** The class string stored in [color]. *)
Definition classes (c : Color) : string := bg c +:+ " " +:+ text c.

(** The pieces the decoder looks at in a date/time field: the parts of the
    first white-space piece between slashes, and the parts of the second
    piece between colons. *)
Definition dateParts (field : string) : list string :=
  split "/" (splitSpaces false field !!! 0%nat).
Definition timeParts (field : string) : list string :=
  match splitSpaces false field !! 1%nat with
  | Some timeStr => split ":" timeStr
  | None => []
  end.



Definition parts (field : string) : list string := dateParts field ++ timeParts field.

(** A valid integer: a text of decimal digits, at least one. *)
Fixpoint allDigits (s : string) : bool :=
  match s with
  | EmptyString => true
  | String c s' => isDigit c && allDigits s'
  end.

Definition validInteger (s : string) : bool :=
  match s with
  | EmptyString => false
  | String _ _ => allDigits s
  end.






(** *** Titles and colours *)

(** The titles of the rows, in row order. *)
Definition titles (rows : list (list string)) : list string :=
  map (fun columns => columns !!! 2%nat) rows.

(** Number of distinct titles in a list. *)
Definition distinct (l : list string) : nat := size (list_to_set l : gset string).

(** The colour map after the titles [seen]: it holds exactly those titles,
    each with the palette entry numbered by the distinct titles that came
    before its first appearance. *)
Definition consistent (seen : list string) (m : gmap string Color) : Prop :=
  (forall t, m !! t = None <-> t ∉ seen)
  /\ size m = distinct seen
  /\ (forall j t, seen !! j = Some t -> t ∉ take j seen ->
        m !! t = Some (paletteEntry (distinct (take j seen) mod 8))).

(** The map update of [getColor]. *)
Definition remember (t : string) (m : gmap string Color) : gmap string Color :=
  match m !! t with
  | Some _ => m
  | None => <[t := paletteEntry (size m mod 8)]> m
  end.

(** *** Sample data *)

(** An event given by its two instants, in milliseconds. *)
Definition eventAt (startMs endMs : Z) : ScheduleEvent :=
  {| id := EmptyString; start := mkDate startMs; end_ := mkDate endMs;
     title := "Yoga"; description := EmptyString;
     capacity := 10; total := 1; waiting := 0; price := Finite 5;
     color := EmptyString; colIndex := None; totalCols := None |}.

(** Two overlapping events and a third that follows the first. *)
Definition sampleDay : list ScheduleEvent :=
  [eventAt 5400000 9000000; eventAt 0 3600000; eventAt 1800000 5400000].

(** An event of a day of September 2025, from [h1:m1] to [h2:m2]. *)
Definition sampleEvent (day h1 m1 h2 m2 : Z) : ScheduleEvent :=
  {| id := EmptyString;
     start := newDate 2025 8 day h1 m1; end_ := newDate 2025 8 day h2 m2;
     title := "Yoga"; description := EmptyString;
     capacity := 10; total := 1; waiting := 0; price := Finite 5;
     color := EmptyString; colIndex := None; totalCols := None |}.

(** Monday 9:00-10:00 and 9:30-10:30, Tuesday 14:00-15:00, Saturday
    10:40-11:15: busy 9:00-10:30 and 10:40-11:15, ten idle minutes between
    them, then idle until 14:00. *)
Definition sampleWeek : list ScheduleEvent :=
  [ sampleEvent 1 9 0 10 0; sampleEvent 1 9 30 10 30;
    sampleEvent 2 14 0 15 0; sampleEvent 6 10 40 11 15 ].

Definition sampleHeader : string :=
  "Start,End,Title,Description,Capacity,Total,Waiting,Price".

(** The row of the design document whose capacity reads [abc]. *)
Definition abcRow : list string :=
  ["1/9/2025 9:00"; "1/9/2025 10:00"; "Yoga"; EmptyString; "abc"; "1"; "0"; "5"].

(** The two overlapping rows of the design document. *)
Definition yogaRow : list string :=
  ["1/9/2025 9:00"; "1/9/2025 10:00"; "Yoga"; EmptyString; "10"; "1"; "0"; "5"].
Definition pilatesRow : list string :=
  ["1/9/2025 9:30"; "1/9/2025 10:30"; "Pilates"; EmptyString; "10"; "1"; "0"; "5"].

Definition decodedSample : list ScheduleEvent :=
  match decode (fun _ => EmptyString) [yogaRow; pilatesRow; yogaRow] with
  | inr events => events
  | inl _ => []
  end.


(** A row whose start minute is followed by text: [parseInt] reads 0 in
    [00pm]. *)
Definition pmRow : list string :=
  ["1/9/2025 9:00pm"; "1/9/2025 10:00"; "Yoga"; EmptyString; "10"; "1"; "0"; "5"].

(** A row of the year 300000, beyond the dates a Date object can hold, with
    a capacity that is not a number. *)
Definition farRow : list string :=
  ["1/1/300000 0:00"; "1/1/300000 1:00"; "Yoga"; EmptyString; "abc"; "1"; "0"; "5"].

Definition farInput : Inputs :=
  {| inputMode := text_mode;
     selectedFile := None;
     inputData :=
       "Start,End,Title,Description,Capacity,Total,Waiting,Price"
       +:+ String newline "1/1/300000 0:00,1/1/300000 1:00,Yoga,,abc,1,0,5" |}.

(** A row with a malformed date followed by a row of 6 fields. *)
Definition badDateRow : list string :=
  ["x 9:00"; "1/9/2025 10:00"; "Yoga"; EmptyString; "10"; "1"; "0"; "5"].
Definition shortRow : list string :=
  ["1/9/2025 9:00"; "1/9/2025 10:00"; "Yoga"; EmptyString; "10"; "1"].

(** The scenario of the design document: a header and one row of 6 fields. *)
Definition shortInput : Inputs :=
  {| inputMode := text_mode;
     selectedFile := None;
     inputData :=
       "Start,End,Title,Description,Capacity,Total,Waiting,Price"
       +:+ String newline "1/9/2025 9:00,1/9/2025 10:00,Yoga,,10,1" |}.

(** The state of the component before the first submission. *)
Definition initialState : AppState :=
  {| events := []; error := None; currentWeekStart := None |}.

(** A state that holds the three decoded events of the design document. *)
Definition sampleState : AppState :=
  {| events := decodedSample; error := None; currentWeekStart := None |}.

(** A header and one row that ends an hour before it starts. *)
Definition reversedInput : Inputs :=
  {| inputMode := text_mode;
     selectedFile := None;
     inputData :=
       "Start,End,Title,Description,Capacity,Total,Waiting,Price"
       +:+ String newline "1/9/2025 10:00,1/9/2025 9:00,Yoga,,10,1,0,5" |}.

(** *** The window and the union, point by point *)

Definition startMinute (e : ScheduleEvent) : Z := minutesOfDay (start e).
Definition endMinute (e : ScheduleEvent) : Z := minutesOfDay (end_ e).

(** The minute [t] lies in the interval, its end excluded. *)
Definition inside (t : Z) (iv : Interval.t) : Prop :=
  Interval.start iv <= t < Interval.end_ iv.

(** [outer] contains [inner]. *)
Definition contains (outer inner : Interval.t) : Prop :=
  Interval.start outer <= Interval.start inner
  /\ Interval.end_ inner <= Interval.end_ outer.

(** The state of the merge loop after the intervals [seen]: every minute of
    a merged interval lies in a seen one, every seen interval lies in a
    merged one, and every merged interval starts where a seen one starts. *)
Definition unionOf (merged seen : list Interval.t) : Prop :=
  (forall m t, m ∈ merged -> inside t m -> exists iv, iv ∈ seen /\ inside t iv)
  /\ (forall iv, iv ∈ seen -> exists m, m ∈ merged /\ contains m iv)
  /\ (forall m, m ∈ merged -> exists iv, iv ∈ seen /\ Interval.start m = Interval.start iv).

(** The interval lies in the window. *)
Definition inWindow (vs ve : Z) (iv : Interval.t) : Prop :=
  vs <= Interval.start iv /\ Interval.end_ iv <= ve.

(** A segment of positive length inside the window. *)
Definition segmentInWindow (vs ve : Z) (seg : Segment.t) : Prop :=
  vs <= Segment.start seg /\ Segment.start seg < Segment.end_ seg
  /\ Segment.end_ seg <= ve.

(** The sum of a list of integers. *)
Fixpoint sumZ (l : list Z) : Z :=
  match l with
  | [] => 0
  | x :: l' => x + sumZ l'
  end.

(** *** Pieces of a split *)

(** Puts [field] in front of the first piece. *)
Definition prepend (field : string) (pieces : list string) : list string :=
  match pieces with
  | h :: t => (field +:+ h) :: t
  | [] => [field]
  end.

(** The naive reading of a text in the CSV dialect: lines split at commas,
    fields trimmed, rows without a non-empty field dropped. *)
Definition commaRows (text : string) : list (list string) :=
  List.filter (existsb nonEmpty)
    (map (fun line => map trim (split ","%char line)) (split newline text)).

(** A field written between double quotes, the double quotes in it doubled. *)
Fixpoint doubleQuotes (field : string) : string :=
  match field with
  | EmptyString => EmptyString
  | String c rest =>
      if Ascii.eqb c quote then String quote (String quote (doubleQuotes rest))
      else String c (doubleQuotes rest)
  end.

Definition quoted (field : string) : string :=
  String quote (doubleQuotes field +:+ String quote EmptyString).

(** The pieces with [sep] between them. *)
Fixpoint join (sep : ascii) (pieces : list string) : string :=
  match pieces with
  | [] => EmptyString
  | p :: more =>
      match more with
      | [] => p
      | _ :: _ => p +:+ String sep (join sep more)
      end
  end.

(** A table written with every field quoted: commas between the fields of a
    row, line breaks between the rows. *)
Definition writeCSV (rows : list (list string)) : string :=
  join newline (map (fun row => join ","%char (map quoted row)) rows).

(** *** Week pages *)

(** [n] presses of the button for the next week, or [- n] presses of the
    button for the previous week when [n] is negative. *)
Definition steps (n : Z) (st : AppState) : AppState :=
  if 0 <=? n then Nat.iter (Z.to_nat n) (handleWeekChange dir_next) st
  else Nat.iter (Z.to_nat (- n)) (handleWeekChange dir_prev) st.

(** The events of [sampleWeek], on the page of the week of Monday
    1 September 2025. *)
Definition sampleWeekState : AppState :=
  {| events := sampleWeek; error := None;
     currentWeekStart := Some (newDate 2025 8 1 0 0) |}.

(** *** The modal and the collection *)

(** [handleModalSave] with the callbacks the application passes to the
    component: [updateEvent] and [createNewEvent]. *)
Definition modalSave (now : nat) (eventToSave : ScheduleEvent) (st : AppState)
  : throws AppState :=
  handleModalSave (fun event st => mret (updateEvent event st)) createNewEvent
    now eventToSave st.

End Notions.

(** * Properties *)

(** ** The stable sort *)

Module SortFacts.
Import JS Notions.

Section Sort.
Context {A : Type} (cmp : A -> A -> Z).

Lemma insert_sorted_perm (x : A) (l : list A) : insert_sorted cmp x l ≡ₚ x :: l.
Proof.
  induction l as [|y l IH]; simpl; [done|].
  destruct (0 <? cmp x y); [|done].
  rewrite IH. apply Permutation_swap.
Qed.

Lemma sort_perm (l : list A) : sort cmp l ≡ₚ l.
Proof.
  induction l as [|x l IH]; simpl; [done|].
  by rewrite insert_sorted_perm, IH.
Qed.

Lemma sort_length (l : list A) : length (sort cmp l) = length l.
Proof. apply Permutation_length, sort_perm. Qed.

End Sort.

(** A comparator that subtracts keys sorts by key. *)
Section ByKey.
Context {A : Type} (key : A -> Z).

Lemma insert_sorted_key (x : A) (l : list A) :
  StronglySorted (key_le key) l ->
  StronglySorted (key_le key) (insert_sorted (fun a b => key a - key b) x l).
Proof.
  induction l as [|y l IH]; simpl; intros Hs.
  - repeat constructor.
  - apply StronglySorted_inv in Hs as [Hl Hy].
    destruct (0 <? key x - key y) eqn:Hc.
    + apply Z.ltb_lt in Hc. constructor; [by apply IH|].
      rewrite insert_sorted_perm. constructor; [unfold key_le; lia | done].
    + apply Z.ltb_ge in Hc. constructor; [by constructor|].
      constructor; [unfold key_le; lia|].
      eapply Forall_impl; [exact Hy|]. unfold key_le. intros; lia.
Qed.

Lemma sort_key (l : list A) :
  StronglySorted (key_le key) (sort (fun a b => key a - key b) l).
Proof.
  induction l as [|x l IH]; simpl; [constructor|]. by apply insert_sorted_key.
Qed.

End ByKey.

(** Elements of a strongly sorted list are related in the order of their
    positions. *)
Lemma StronglySorted_lookup {A} (R : relation A) (l : list A) i j a b :
  StronglySorted R l -> (i < j)%nat -> l !! i = Some a -> l !! j = Some b -> R a b.
Proof.
  intros Hs. revert i j. induction Hs as [|x l _ IH Hx]; intros i j Hij Hi Hj; [done|].
  destruct j as [|j]; [lia|]. simpl in Hj.
  destruct i as [|i]; simpl in Hi.
  - simplify_eq. rewrite Forall_forall in Hx. apply Hx. by eapply list_elem_of_lookup_2.
  - apply (IH i j); [lia|done..].
Qed.

Lemma StronglySorted_lookup_next {A} (R : relation A) (l : list A) i a b :
  StronglySorted R l -> l !! i = Some a -> l !! S i = Some b -> R a b.
Proof.
  intros Hs. revert i. induction Hs as [|x l _ IH Hx]; intros i Hi Hn; [done|].
  destruct i as [|i]; simpl in Hi, Hn.
  - simplify_eq. rewrite Forall_forall in Hx. apply Hx. by eapply list_elem_of_lookup_2.
  - by apply (IH i).
Qed.

End SortFacts.

(** ** Column packing *)

Module PackingFacts.
Import JS Types Schedule Notions SortFacts.

Lemma simultaneous_app t l1 l2 :
  simultaneous t (l1 ++ l2) = (simultaneous t l1 + simultaneous t l2)%nat.
Proof. induction l1 as [|e l1 IH]; simpl; [done|]. rewrite IH. lia. Qed.

Lemma simultaneous_perm t l1 l2 :
  l1 ≡ₚ l2 -> simultaneous t l1 = simultaneous t l2.
Proof.
  induction 1 as [|x l l' _ IH|x y l|l l' l'' _ IH1 _ IH2]; simpl; lia.
Qed.

Lemma simultaneous_none t l :
  Forall (fun e => covers t e = false) l -> simultaneous t l = 0%nat.
Proof. induction 1 as [|e l He _ IH]; simpl; [done|]. by rewrite He, IH. Qed.

(** A column whose events follow one another holds at most one running event. *)
Lemma simultaneous_column t col :
  StronglySorted precedes col -> Forall positiveEvent col -> (simultaneous t col <= 1)%nat.
Proof.
  induction 1 as [|a col _ IH Ha]; intros Hp; simpl; [lia|].
  apply Forall_cons in Hp as [Hpa Hp].
  destruct (covers t a) eqn:Hc; [|specialize (IH Hp); lia].
  rewrite simultaneous_none; [lia|].
  rewrite Forall_forall in Ha, Hp. apply Forall_forall. intros b Hb.
  specialize (Ha b Hb). unfold covers, precedes in *.
  apply andb_prop in Hc as [_ Hc]. apply Z.ltb_lt in Hc.
  apply andb_false_iff. left. apply Z.leb_gt. lia.
Qed.

Lemma simultaneous_columns_le t columns :
  Forall (fun col => StronglySorted precedes col /\ Forall positiveEvent col) columns ->
  (simultaneous t (concat columns) <= length columns)%nat.
Proof.
  induction 1 as [|col columns [Hs Hp] _ IH]; simpl; [lia|].
  rewrite simultaneous_app. pose proof (simultaneous_column t col Hs Hp). lia.
Qed.

Lemma simultaneous_elem t e l : e ∈ l -> covers t e = true -> (1 <= simultaneous t l)%nat.
Proof.
  induction 1 as [|x y l _ IH]; simpl; intros Hc.
  - rewrite Hc. lia.
  - specialize (IH Hc). lia.
Qed.

Lemma simultaneous_columns_ge t columns :
  Forall (fun col => exists e, e ∈ col /\ covers t e = true) columns ->
  (length columns <= simultaneous t (concat columns))%nat.
Proof.
  induction 1 as [|col columns (e & He & Hc) _ IH]; simpl; [lia|].
  rewrite simultaneous_app. pose proof (simultaneous_elem t e col He Hc). lia.
Qed.

Lemma goodColumn_snoc col lst e :
  goodColumn col -> last col = Some lst -> endOf lst <= startOf e -> positiveEvent e ->
  goodColumn (col ++ [e]).
Proof.
  intros (Hne & Hs & Hp) Hl Hle He. split; [by destruct col|]. split.
  - apply StronglySorted_app_2; [|done|repeat constructor].
    intros a b Ha Hb. apply list_elem_of_singleton in Hb as ->.
    apply last_Some in Hl as [col' ->].
    apply elem_of_app in Ha as [Ha|Ha].
    + pose proof (StronglySorted_app_1_elem_of _ _ _ a lst Hs Ha) as Hal.
      rewrite Forall_app, Forall_singleton in Hp. destruct Hp as [_ Hp].
      specialize (Hal ltac:(by apply list_elem_of_singleton)).
      unfold precedes, positiveEvent in *. lia.
    + apply list_elem_of_singleton in Ha as ->. done.
  - apply Forall_app. split; [done|]. by apply Forall_singleton.
Qed.

(** What one placement does: the event joins an existing column, or every
    existing column ends with an event still running when it starts. *)
Lemma placeEvent_spec columns e :
  Forall goodColumn columns -> positiveEvent e ->
  exists i columns', placeEvent columns e = Some (i, columns')
    /\ Forall goodColumn columns'
    /\ concat columns' ≡ₚ e :: concat columns
    /\ (length columns' = length columns
        \/ length columns' = S (length columns)
           /\ Forall (fun col => exists lst, lst ∈ col /\ startOf e < endOf lst) columns).
Proof.
  intros Hg He. induction Hg as [|col columns Hcol Hg IH]; simpl.
  - exists 0%nat, [[e]]. split_and!; [done| |done|right; split; [done|constructor]].
    constructor; [|constructor]. split_and!; [done|repeat constructor|by constructor].
  - destruct (last col) as [lst|] eqn:Hl; simpl.
    2:{ apply last_None in Hl. by destruct Hcol. }
    destruct (getTime (end_ lst) <=? getTime (start e)) eqn:Hc.
    + apply Z.leb_le in Hc. exists 0%nat, ((col ++ [e]) :: columns).
      split_and!; [done| | |by left].
      * constructor; [|done]. by eapply goodColumn_snoc.
      * simpl. rewrite <- (assoc_L (++)). symmetry. apply Permutation_middle.
    + apply Z.leb_gt in Hc.
      destruct IH as (i & columns' & -> & Hg' & Hperm & Hlen). simpl.
      exists (S i), (col :: columns'). split_and!; [done|by constructor| |].
      * simpl. rewrite Hperm. by rewrite Permutation_middle.
      * destruct Hlen as [Hlen|[Hlen Hrun]]; [left; simpl; lia|right].
        split; [simpl; lia|]. constructor; [|done].
        exists lst. split; [by apply last_Some_elem_of|]. unfold startOf, endOf. lia.
Qed.

Lemma placeAll_spec sorted : forall columns placed,
  StronglySorted (key_le startOf) sorted ->
  Forall positiveEvent sorted ->
  Forall (fun a => Forall (fun e => startOf a <= startOf e) sorted) placed ->
  packed columns placed ->
  exists idxs columns', placeAll columns sorted = Some (idxs, columns')
    /\ length idxs = length sorted
    /\ packed columns' (placed ++ sorted).
Proof.
  induction sorted as [|e sorted IH]; intros columns placed Hs Hp Hbefore Hpk; simpl.
  - exists [], columns. by rewrite (right_id_L [] (++)).
  - apply StronglySorted_inv in Hs as [Hs He].
    apply Forall_cons in Hp as [Hpe Hp].
    destruct Hpk as (Hg & Hperm & t & Ht).
    destruct (placeEvent_spec columns e Hg Hpe) as (i & columns1 & -> & Hg1 & Hperm1 & Hlen).
    simpl.
    destruct (IH columns1 (placed ++ [e])) as (idxs & columns2 & -> & Hlen2 & Hpk2);
      [done|done| | |].
    + apply Forall_app. split.
      * eapply Forall_impl; [exact Hbefore|]. intros a Ha. by apply Forall_cons in Ha as [_ ?].
      * apply Forall_singleton. eapply Forall_impl; [exact He|]. done.
    + split_and!; [done| |].
      * rewrite Hperm1, Hperm. apply Permutation_cons_append.
      * destruct Hlen as [->|[-> Hrun]].
        -- exists t. rewrite simultaneous_app. lia.
        -- exists (startOf e).
           rewrite <- (simultaneous_perm _ (e :: concat columns)) by
             (rewrite Hperm; apply Permutation_cons_append).
           simpl. replace (covers (startOf e) e) with true.
           2:{ symmetry. unfold covers. apply andb_true_intro.
               split; [apply Z.leb_le; lia|apply Z.ltb_lt; exact Hpe]. }
           apply le_n_S, simultaneous_columns_ge.
           apply Forall_forall. intros col Hcol. rewrite Forall_forall in Hrun.
           destruct (Hrun col Hcol) as (lst & Hin & Hrunning).
           exists lst. split; [done|]. unfold covers. apply andb_true_intro. split.
           ++ apply Z.leb_le. rewrite Forall_forall in Hbefore.
              assert (lst ∈ placed) as Hpl.
              { rewrite <- Hperm. apply list_elem_of_In, in_concat.
                exists col. by rewrite <- !list_elem_of_In. }
              specialize (Hbefore lst Hpl). by apply Forall_cons in Hbefore as [? _].
           ++ by apply Z.ltb_lt.
    + simpl. exists (i :: idxs), columns2. split_and!; [done|simpl; lia|].
      by rewrite <- (assoc_L (++)) in Hpk2.
Qed.

(** *** The column indices written on the events *)

Lemma pick_rank c k : forall sorted idxs a,
  sorted !! k = Some a -> idxs !! k = Some c ->
  pick c sorted idxs !! rank c idxs k = Some a.
Proof.
  induction k as [|k IH]; intros [|e sorted] [|i idxs] a Ha Hc; try done.
  - simpl in *. simplify_eq. by rewrite Nat.eqb_refl.
  - simpl in *. destruct (i =? c)%nat; simpl; by apply IH.
Qed.

Lemma rank_lt c k : forall idxs k',
  (k < k')%nat -> idxs !! k = Some c -> (rank c idxs k < rank c idxs k')%nat.
Proof.
  induction k as [|k IH]; intros [|i idxs] [|k'] Hlt Hc; try done; try lia.
  - simpl in *. simplify_eq. rewrite Nat.eqb_refl. lia.
  - simpl in *. specialize (IH idxs k' ltac:(lia) Hc). lia.
Qed.

Lemma placeEvent_lookup columns : forall e i columns',
  placeEvent columns e = Some (i, columns') ->
  forall c, columns' !! c =
    if decide (c = i) then Some (default [] (columns !! c) ++ [e]) else columns !! c.
Proof.
  induction columns as [|col rest IH]; intros e i columns'; simpl.
  - intros [= <- <-] [|c]; [done|]. by destruct c.
  - destruct (last col) as [lst|]; simpl; [|done].
    destruct (_ <=? _).
    + intros [= <- <-] [|c]; done.
    + destruct (placeEvent rest e) as [[i' rest']|] eqn:Hp; simpl; [|done].
      intros [= <- <-] [|c]; [done|]. simpl. rewrite (IH _ _ _ Hp c).
      destruct (decide (c = i')), (decide (S c = S i')); try done; lia.
Qed.

Lemma placeAll_lookup sorted : forall columns idxs columns',
  placeAll columns sorted = Some (idxs, columns') ->
  forall c, default [] (columns' !! c) = default [] (columns !! c) ++ pick c sorted idxs.
Proof.
  induction sorted as [|e sorted IH]; intros columns idxs columns'; simpl.
  - intros [= <- <-] c. by rewrite (right_id_L [] (++)).
  - destruct (placeEvent columns e) as [[i columns1]|] eqn:Hp; simpl; [|done].
    destruct (placeAll columns1 sorted) as [[idxs' columns2]|] eqn:Ha; simpl; [|done].
    intros [= <- <-] c. rewrite (IH _ _ _ Ha c), (placeEvent_lookup _ _ _ _ Hp c).
    simpl. destruct (decide (c = i)) as [->|Hne].
    + rewrite Nat.eqb_refl. simpl. by rewrite <- (assoc_L (++)).
    + by replace (i =? c)%nat with false by (symmetry; apply Nat.eqb_neq; lia).
Qed.

(** Two events of the laid-out day with the same column index sit at
    different places of that column. *)
Lemma same_index_same_column sorted idxs columns k k' a b c :
  placeAll [] sorted = Some (idxs, columns) ->
  (k < k')%nat ->
  sorted !! k = Some a -> idxs !! k = Some c ->
  sorted !! k' = Some b -> idxs !! k' = Some c ->
  exists col p p', columns !! c = Some col /\ (p < p')%nat
    /\ col !! p = Some a /\ col !! p' = Some b.
Proof.
  intros Hall Hlt Ha Hca Hb Hcb.
  pose proof (placeAll_lookup _ _ _ _ Hall c) as Hcol. simpl in Hcol.
  pose proof (pick_rank c k sorted idxs a Ha Hca) as Hpa.
  pose proof (pick_rank c k' sorted idxs b Hb Hcb) as Hpb.
  pose proof (rank_lt c k idxs k' Hlt Hca) as Hr.
  rewrite <- Hcol in Hpa, Hpb.
  destruct (columns !! c) as [col|]; [|done]. simpl in *. by eauto 10.
Qed.

(** C1.  For a day list in which every event starts strictly before it ends,
    the greedy packing (stable sort by start, first column whose last event
    ends no later than the event starts, else a new column) returns columns
    that hold exactly the events of the day and in which no two events of one
    column overlap; the laid-out day carries on every event the number of
    columns and the index of a column, and no two of its events with the same
    column index overlap; and the number of columns is the largest number of
    events running at one instant: no instant has more, and some instant has
    as many. *)
Theorem packColumns_disjoint_minimal (dayEvents : list ScheduleEvent) :
  Forall (fun e => getTime (start e) < getTime (end_ e)) dayEvents ->
  exists columns laid,
    packColumns dayEvents = Some columns
    /\ layoutDay dayEvents = Some laid
    /\ concat columns ≡ₚ dayEvents
    /\ (forall col i j a b,
          col ∈ columns -> i <> j -> col !! i = Some a -> col !! j = Some b ->
          ~ overlaps a b)
    /\ (forall k k' a b,
          k <> k' -> laid !! k = Some a -> laid !! k' = Some b ->
          colIndex a = colIndex b -> ~ overlaps a b)
    /\ Forall (fun a => totalCols a = Some (length columns)
                 /\ exists c, colIndex a = Some c /\ (c < length columns)%nat) laid
    /\ (forall t, (simultaneous t dayEvents <= length columns)%nat)
    /\ (exists t, simultaneous t dayEvents = length columns).
Proof.
  intros Hpos. unfold packColumns, layoutDay.
  pose proof (sort_perm byStart dayEvents) as Hsort.
  destruct (placeAll_spec (sort byStart dayEvents) [] []) as
    (idxs & columns & Hall & Hlen & Hg & Hperm & t & Ht).
  { apply (sort_key startOf). }
  { by rewrite Hsort. }
  { constructor. }
  { split_and!; [constructor|done|exists 0; simpl; lia]. }
  rewrite Hall. simpl in Hperm. rewrite Hsort in Hperm.
  assert (Forall (fun col => StronglySorted precedes col /\ Forall positiveEvent col) columns)
    as Hcols.
  { eapply Forall_impl; [exact Hg|]. by intros col (_ & ? & ?). }
  assert (forall t, (simultaneous t dayEvents <= length columns)%nat) as Hub.
  { intros t'. rewrite <- (simultaneous_perm t' _ _ Hperm).
    by apply simultaneous_columns_le. }
  assert (forall col i j a b, col ∈ columns -> (i < j)%nat ->
            col !! i = Some a -> col !! j = Some b -> precedes a b) as Horder.
  { intros col i j a b Hcol Hij Ha Hb. rewrite Forall_forall in Hcols.
    destruct (Hcols col Hcol) as [Hs _]. by eapply StronglySorted_lookup. }
  assert (forall k k' a b c, (k < k')%nat ->
            sort byStart dayEvents !! k = Some a -> idxs !! k = Some c ->
            sort byStart dayEvents !! k' = Some b -> idxs !! k' = Some c ->
            precedes a b) as Hsame.
  { intros k k' a b c Hlt Ha Hca Hb Hcb.
    destruct (same_index_same_column _ _ _ _ _ _ _ _ Hall Hlt Ha Hca Hb Hcb)
      as (col & p & p' & Hcol & Hp & Hpa & Hpb).
    eapply Horder; [by eapply list_elem_of_lookup_2|done..]. }
  eexists columns, _. simpl. split_and!; [done|done|done| | | |done|].
  - intros col i j a b Hcol Hij Ha Hb [Hab Hba].
    destruct (decide (i < j)%nat) as [Hlt|Hge].
    + pose proof (Horder col i j a b Hcol Hlt Ha Hb) as Hp. unfold precedes in Hp. lia.
    + pose proof (Horder col j i b a Hcol ltac:(lia) Hb Ha) as Hp.
      unfold precedes in Hp. lia.
  - intros k k' a b Hne Ha Hb Hcol [Hab Hba].
    apply lookup_zip_with_Some in Ha as (ea & ca & -> & Hea & Hca).
    apply lookup_zip_with_Some in Hb as (eb & cb & -> & Heb & Hcb).
    simpl in Hcol. injection Hcol as ->.
    unfold overlaps, startOf, endOf in *. simpl in *.
    destruct (decide (k < k')%nat) as [Hlt|Hge].
    + pose proof (Hsame k k' ea eb cb Hlt Hea Hca Heb Hcb) as Hp.
      unfold precedes, startOf, endOf in Hp. lia.
    + pose proof (Hsame k' k eb ea cb ltac:(lia) Heb Hcb Hea Hca) as Hp.
      unfold precedes, startOf, endOf in Hp. lia.
  - apply Forall_forall. intros a Ha.
    apply list_elem_of_lookup in Ha as [k Ha].
    apply lookup_zip_with_Some in Ha as (ea & ca & -> & Hea & Hca).
    simpl. split; [done|]. exists ca. split; [done|].
    pose proof (placeAll_lookup _ _ _ _ Hall ca) as Hcol. simpl in Hcol.
    pose proof (pick_rank ca k _ idxs ea Hea Hca) as Hpk. rewrite <- Hcol in Hpk.
    destruct (columns !! ca) as [col|] eqn:Hc; [|done]. by eapply lookup_lt_Some.
  - exists t. simpl in Ht. rewrite (simultaneous_perm t _ _ Hsort) in Ht.
    specialize (Hub t). lia.
Qed.

Lemma packColumns_disjoint_minimal_witness :
  exists columns laid,
    packColumns sampleDay = Some columns
    /\ layoutDay sampleDay = Some laid
    /\ concat columns ≡ₚ sampleDay
    /\ (forall col i j a b,
          col ∈ columns -> i <> j -> col !! i = Some a -> col !! j = Some b ->
          ~ overlaps a b)
    /\ (forall k k' a b,
          k <> k' -> laid !! k = Some a -> laid !! k' = Some b ->
          colIndex a = colIndex b -> ~ overlaps a b)
    /\ Forall (fun a => totalCols a = Some (length columns)
                 /\ exists c, colIndex a = Some c /\ (c < length columns)%nat) laid
    /\ (forall t, (simultaneous t sampleDay <= length columns)%nat)
    /\ (exists t, simultaneous t sampleDay = length columns).
Proof.
  apply (packColumns_disjoint_minimal sampleDay).
  repeat constructor.
Defined.

(** The packing of [sampleDay]: the latest event joins the first column,
    whose last event has ended when it starts. *)
Example packColumns_sampleDay :
  packColumns sampleDay =
    Some [ [eventAt 0 3600000; eventAt 5400000 9000000];
           [eventAt 1800000 5400000] ].
Proof. reflexivity. Qed.

Example layoutDay_sampleDay :
  (fun laid => map (fun e => (colIndex e, totalCols e)) laid) <$> layoutDay sampleDay
  = Some [ (Some 0, Some 2); (Some 1, Some 2); (Some 0, Some 2) ]%nat.
Proof. reflexivity. Qed.

End PackingFacts.

(** ** The compressed timeline *)

Module TimelineFacts.
Import JS Types Schedule Notions SortFacts.

Lemma insert_last {A} (l : list A) (x y : A) :
  <[pred (length (l ++ [x])) := y]> (l ++ [x]) = l ++ [y].
Proof.
  rewrite length_app. simpl. replace (pred (length l + 1)) with (length l + 0)%nat by lia.
  by rewrite insert_app_r.
Qed.

Lemma mergeStep_separated merged iv :
  separated merged -> positiveInterval iv -> separated (mergeStep merged iv).
Proof.
  intros [Hs Hp] Hiv. unfold mergeStep.
  destruct (last merged) as [lst|] eqn:Hl.
  2:{ apply last_None in Hl as ->. simpl. split; repeat constructor; done. }
  apply last_Some in Hl as [m ->].
  assert (forall a, a ∈ m -> apart a lst) as Hm.
  { intros a Ha. eapply StronglySorted_app_1_elem_of; [exact Hs|done|].
    by apply list_elem_of_singleton. }
  rewrite Forall_app, Forall_singleton in Hp. destruct Hp as [Hpm Hpl].
  destruct (Interval.end_ lst <? Interval.start iv) eqn:Hc.
  - apply Z.ltb_lt in Hc. split.
    + apply StronglySorted_app_2; [|done|repeat constructor].
      intros a b Ha Hb. apply list_elem_of_singleton in Hb as ->.
      apply elem_of_app in Ha as [Ha|Ha].
      * specialize (Hm a Ha). unfold apart, positiveInterval in *. lia.
      * apply list_elem_of_singleton in Ha as ->. exact Hc.
    + rewrite !Forall_app, !Forall_singleton. done.
  - rewrite insert_last. split.
    + apply StronglySorted_app_2;
        [|by eapply StronglySorted_app_1_l|repeat constructor].
      intros a b Ha Hb. apply list_elem_of_singleton in Hb as ->.
      specialize (Hm a Ha). unfold apart in *. simpl. lia.
    + rewrite Forall_app, Forall_singleton. split; [done|].
      unfold positiveInterval in *. simpl. lia.
Qed.

Lemma foldl_mergeStep_separated intervals : forall merged,
  separated merged -> Forall positiveInterval intervals ->
  separated (foldl mergeStep merged intervals).
Proof.
  induction intervals as [|iv intervals IH]; intros merged Hm Hp; simpl; [done|].
  apply Forall_cons in Hp as [Hiv Hp]. apply IH; [|done].
  by apply mergeStep_separated.
Qed.

Lemma clipped_positive vs ve events :
  Forall positiveInterval (flat_map (clipped vs ve) events).
Proof.
  induction events as [|e events IH]; simpl; [constructor|].
  apply Forall_app. split; [|done]. unfold clipped.
  destruct (_ <? _) eqn:Hc; [|constructor].
  apply Z.ltb_lt in Hc. by apply Forall_singleton.
Qed.

Lemma unionIntervals_separated events vs ve :
  separated (unionIntervals events vs ve).
Proof.
  unfold unionIntervals. apply foldl_mergeStep_separated.
  - split; constructor.
  - rewrite sort_perm. apply clipped_positive.
Qed.

(** The clipped intervals lie inside the window, so a non-empty union
    means a non-empty window. *)
Lemma mergeStep_nil merged iv : mergeStep merged iv <> [].
Proof.
  unfold mergeStep. destruct (last merged) as [lst|] eqn:Hl.
  - apply last_Some in Hl as [m ->].
    destruct (_ <? _); [by destruct m|]. rewrite insert_last. by destruct m.
  - by destruct merged.
Qed.

Lemma unionIntervals_window events vs ve :
  unionIntervals events vs ve <> [] -> vs < ve.
Proof.
  unfold unionIntervals. intros Hne.
  destruct (flat_map (clipped vs ve) events) as [|iv l] eqn:Hf; [done|].
  assert (iv ∈ flat_map (clipped vs ve) events) as Hin by (rewrite Hf; left).
  apply list_elem_of_In, in_flat_map in Hin as (e & _ & Hin).
  unfold clipped in Hin. destruct (_ <? _) eqn:Hc; [|done].
  apply Z.ltb_lt in Hc. lia.
Qed.

(** *** Heights *)

Lemma scaled_mono a b : a <= b -> (scaled a <= scaled b)%Q.
Proof.
  intros Hab. unfold scaled, HOUR_HEIGHT.
  assert (inject_Z a <= inject_Z b)%Q as H by (by rewrite <- Zle_Qle).
  apply Qmult_le_compat_r; [|done]. apply Qmult_le_compat_r; [done|done].
Qed.

Lemma scaled_nonneg a : 0 <= a -> (0 <= scaled a)%Q.
Proof.
  intros Ha. eapply Qle_trans; [|apply (scaled_mono 0 a Ha)]. by vm_compute.
Qed.

Lemma between_sound cur next : Forall sound (between cur next).
Proof.
  unfold between. destruct (0 <? _) eqn:Hpos; [|constructor].
  apply Z.ltb_lt in Hpos.
  destruct (_ <=? _); apply Forall_singleton; split; simpl; try done.
  - apply scaled_nonneg. lia.
  - intros _. apply Qle_refl.
Qed.

Lemma walk_sound intervals :
  Forall positiveInterval intervals -> Forall sound (walk intervals).
Proof.
  induction 1 as [|cur rest Hcur Hrest IH]; simpl; [constructor|].
  constructor.
  - split; simpl; [|intros _; apply Qle_refl].
    apply scaled_nonneg. unfold positiveInterval in Hcur. lia.
  - destruct rest as [|next rest']; [constructor|].
    apply Forall_app. split; [apply between_sound|exact IH].
Qed.

Lemma segments_sound events vs ve :
  Forall sound (segments vs ve (unionIntervals events vs ve)).
Proof.
  unfold segments. destruct (ve <=? vs) eqn:Hw; [constructor|].
  apply Z.leb_gt in Hw.
  destruct (unionIntervals_separated events vs ve) as [_ Hp].
  destruct (unionIntervals events vs ve) as [|iv u] eqn:Hu.
  - apply Forall_singleton. split; simpl; [|intros _; apply Qle_refl].
    apply scaled_nonneg. lia.
  - by apply walk_sound.
Qed.

Lemma accumulate_ge segments clamped : forall y,
  Forall sound segments -> (y <= accumulate segments clamped y)%Q.
Proof.
  induction segments as [|seg rest IH]; intros y Hs; simpl; [apply Qle_refl|].
  apply Forall_cons in Hs as [[Hh Hv] Hs].
  destruct (clamped <? Segment.start seg) eqn:Hbefore; [apply Qle_refl|].
  apply Z.ltb_ge in Hbefore.
  destruct (Segment.end_ seg <=? clamped).
  - specialize (IH (y + Segment.height seg)%Q Hs). lra.
  - destruct (Segment.type seg); [|lra].
    pose proof (scaled_nonneg (clamped - Segment.start seg) ltac:(lia)). lra.
Qed.

Lemma accumulate_mono segments c1 c2 : forall y,
  Forall sound segments -> c1 <= c2 ->
  (accumulate segments c1 y <= accumulate segments c2 y)%Q.
Proof.
  induction segments as [|seg rest IH]; intros y Hs Hc; simpl; [apply Qle_refl|].
  pose proof Hs as Hall.
  apply Forall_cons in Hs as [[Hh Hv] Hs].
  destruct (c1 <? Segment.start seg) eqn:H1.
  - destruct (c2 <? Segment.start seg) eqn:H2; [apply Qle_refl|].
    pose proof (accumulate_ge (seg :: rest) c2 y Hall) as Hge.
    simpl in Hge. by rewrite H2 in Hge.
  - apply Z.ltb_ge in H1.
    replace (c2 <? Segment.start seg) with false by (symmetry; apply Z.ltb_ge; lia).
    destruct (Segment.end_ seg <=? c1) eqn:E1.
    + apply Z.leb_le in E1.
      replace (Segment.end_ seg <=? c2) with true by (symmetry; apply Z.leb_le; lia).
      by apply IH.
    + apply Z.leb_gt in E1.
      destruct (Segment.end_ seg <=? c2) eqn:E2.
      * apply Z.leb_le in E2.
        pose proof (accumulate_ge rest c2 (y + Segment.height seg)%Q Hs) as Hge.
        destruct (Segment.type seg); [|lra].
        pose proof (scaled_mono (c1 - Segment.start seg)
                      (Segment.end_ seg - Segment.start seg) ltac:(lia)).
        specialize (Hv eq_refl). lra.
      * destruct (Segment.type seg); [|apply Qle_refl].
        pose proof (scaled_mono (c1 - Segment.start seg) (c2 - Segment.start seg)
                      ltac:(lia)).
        lra.
Qed.

(** *** The shape of the segment list *)

Lemma between_apart cur next : apart cur next -> between cur next = [idle cur next].
Proof.
  unfold apart, between, idle, MIN_COLLAPSIBLE_GAP_MINUTES. intros H.
  replace (0 <? Interval.start next - Interval.end_ cur) with true
    by (symmetry; apply Z.ltb_lt; lia).
  by destruct (60 <=? _).
Qed.

Lemma walk_lookup intervals : forall i cur next,
  StronglySorted apart intervals ->
  intervals !! i = Some cur -> intervals !! S i = Some next ->
  walk intervals !! (2 * i)%nat = Some (busy cur)
  /\ walk intervals !! (2 * i + 1)%nat = Some (idle cur next)
  /\ walk intervals !! (2 * i + 2)%nat = Some (busy next).
Proof.
  induction intervals as [|c0 rest IH]; intros i cur next Hs Hi Hn; [done|].
  apply StronglySorted_inv in Hs as [Hs Hc0].
  destruct rest as [|n0 rest']; [done|].
  apply Forall_cons in Hc0 as [Hap _].
  change (walk (c0 :: n0 :: rest'))
    with (busy c0 :: between c0 n0 ++ walk (n0 :: rest')).
  rewrite (between_apart _ _ Hap).
  destruct i as [|i].
  - simpl in Hi, Hn. simplify_eq. done.
  - replace (2 * S i)%nat with (S (S (2 * i))) by lia.
    replace (2 * S i + 1)%nat with (S (S (2 * i + 1))) by lia.
    replace (2 * S i + 2)%nat with (S (S (2 * i + 2))) by lia.
    apply (IH i cur next Hs Hi Hn).
Qed.

Lemma walk_length intervals :
  StronglySorted apart intervals -> intervals <> [] ->
  length (walk intervals) = (2 * length intervals - 1)%nat.
Proof.
  induction 1 as [|c0 rest Hs IH Hc0]; intros Hne; [done|].
  destruct rest as [|n0 rest']; [done|].
  apply Forall_cons in Hc0 as [Hap _].
  change (walk (c0 :: n0 :: rest'))
    with (busy c0 :: between c0 n0 ++ walk (n0 :: rest')).
  rewrite (between_apart _ _ Hap). simpl length in *.
  rewrite IH by done. lia.
Qed.

Lemma between_gap cur next seg :
  seg ∈ between cur next -> Segment.type seg = Segment.gap ->
  60 <= Segment.end_ seg - Segment.start seg.
Proof.
  unfold between, MIN_COLLAPSIBLE_GAP_MINUTES.
  destruct (0 <? _); [|by intros ?%elem_of_nil].
  destruct (60 <=? _) eqn:Hc; intros ->%list_elem_of_singleton; simpl; [|done].
  intros _. by apply Z.leb_le.
Qed.

Lemma walk_gap intervals seg :
  seg ∈ walk intervals -> Segment.type seg = Segment.gap ->
  60 <= Segment.end_ seg - Segment.start seg.
Proof.
  induction intervals as [|cur rest IH]; simpl; [by intros ?%elem_of_nil|].
  intros Hin Hgap. apply elem_of_cons in Hin as [->|Hin]; [done|].
  destruct rest as [|next rest']; [by apply elem_of_nil in Hin|].
  apply elem_of_app in Hin as [Hin|Hin]; [by eapply between_gap|by apply IH].
Qed.

Lemma segments_walk events vs ve :
  unionIntervals events vs ve <> [] ->
  segments vs ve (unionIntervals events vs ve) = walk (unionIntervals events vs ve).
Proof.
  intros Hne. pose proof (unionIntervals_window events vs ve Hne) as Hw.
  unfold segments. replace (ve <=? vs) with false by (symmetry; apply Z.leb_gt; lia).
  by destruct (unionIntervals events vs ve).
Qed.

(** C2.  [mapMinToY], closed over the window and the segments the component
    derives from its events, is monotonic on the visible window: for minutes
    [a < b] between [visibleStartMin] and [visibleEndMin], the offset of [a]
    is at most the offset of [b]. *)
Theorem mapMinToY_monotonic (events : list ScheduleEvent) (a b : Z) :
  visibleStartMin (timeline events) <= a ->
  a < b ->
  b <= visibleEndMin (timeline events) ->
  (mapMinToYOf events a <= mapMinToYOf events b)%Q.
Proof.
  intros _ Hab _. unfold mapMinToYOf, mapMinToY, timeline.
  destruct (visibleWindow events) as [vs ve]. simpl.
  apply accumulate_mono; [apply segments_sound|lia].
Qed.

Lemma mapMinToY_monotonic_witness :
  visibleStartMin (timeline sampleWeek) <= 600
  /\ 600 < 700
  /\ 700 <= visibleEndMin (timeline sampleWeek)
  /\ (mapMinToYOf sampleWeek 600 <= mapMinToYOf sampleWeek 700)%Q.
Proof.
  assert (visibleStartMin (timeline sampleWeek) <= 600) as H1 by (by vm_compute).
  assert (600 < 700) as H2 by lia.
  assert (700 <= visibleEndMin (timeline sampleWeek)) as H3 by (by vm_compute).
  split_and!; [done..|].
  exact (mapMinToY_monotonic sampleWeek 600 700 H1 H2 H3).
Defined.

(** C3.  For consecutive merged busy intervals [cur] and [next], the idle
    stretch between them has positive length and is emitted as exactly one
    segment, placed between the two busy segments: a gap segment of height
    [GAP_MARKER_HEIGHT] when it lasts 60 minutes or more, a visible segment
    at true scale when it is shorter.  The list holds nothing but the busy
    segments and one segment for each such stretch, and none of its gap
    segments covers less than 60 minutes. *)
Theorem idle_stretch_collapsed (events : list ScheduleEvent) (i : nat)
  (cur next : Interval.t) :
  merged (timeline events) !! i = Some cur ->
  merged (timeline events) !! S i = Some next ->
  let minutes := Interval.start next - Interval.end_ cur in
  0 < minutes
  /\ segs (timeline events) !! (2 * i)%nat = Some (busy cur)
  /\ segs (timeline events) !! (2 * i + 1)%nat =
       Some (if 60 <=? minutes
             then Segment.mk Segment.gap (Interval.end_ cur) (Interval.start next)
                    GAP_MARKER_HEIGHT
             else Segment.mk Segment.visible (Interval.end_ cur) (Interval.start next)
                    (scaled minutes))
  /\ segs (timeline events) !! (2 * i + 2)%nat = Some (busy next)
  /\ length (segs (timeline events)) = (2 * length (merged (timeline events)) - 1)%nat
  /\ (forall seg, seg ∈ segs (timeline events) ->
        Segment.type seg = Segment.gap ->
        60 <= Segment.end_ seg - Segment.start seg).
Proof.
  unfold timeline. destruct (visibleWindow events) as [vs ve]. simpl.
  intros Hi Hn.
  assert (unionIntervals events vs ve <> []) as Hne by (by intros E; rewrite E in Hi).
  rewrite (segments_walk _ _ _ Hne).
  destruct (unionIntervals_separated events vs ve) as [Hs _].
  destruct (walk_lookup _ i cur next Hs Hi Hn) as (H0 & H1 & H2).
  split_and!; [|done|done|done|by apply walk_length|intros seg; apply walk_gap].
  pose proof (StronglySorted_lookup_next _ _ _ _ _ Hs Hi Hn) as Hap.
  unfold apart in Hap. lia.
Qed.

Lemma idle_stretch_collapsed_witness :
  merged (timeline sampleWeek) !! 1%nat = Some (Interval.mk 640 675)
  /\ merged (timeline sampleWeek) !! 2%nat = Some (Interval.mk 840 900)
  /\ segs (timeline sampleWeek) !! 3%nat =
       Some (Segment.mk Segment.gap 675 840 GAP_MARKER_HEIGHT).
Proof.
  assert (merged (timeline sampleWeek) !! 1%nat = Some (Interval.mk 640 675)) as H1
    by (by vm_compute).
  assert (merged (timeline sampleWeek) !! 2%nat = Some (Interval.mk 840 900)) as H2
    by (by vm_compute).
  split_and!; [done..|].
  exact (proj1 (proj2 (proj2 (idle_stretch_collapsed sampleWeek 1 _ _ H1 H2)))).
Defined.

End TimelineFacts.

(** ** The rendered day columns *)

Module DayFacts.
Import JS Types Schedule Notions SortFacts.

Lemma dayIndex_dayOf events e : dayIndex (getEventPosition events e) = dayOf e.
Proof. reflexivity. Qed.

Lemma getDay_range d : 0 <= getDay d < 7.
Proof. unfold getDay. apply Z.mod_pos_bound. lia. Qed.

Lemma dayOf_range e : 0 <= dayOf e < 7.
Proof.
  unfold dayOf. pose proof (getDay_range (start e)).
  destruct (getDay (start e) - 1 =? -1) eqn:E; [lia|]. apply Z.eqb_neq in E. lia.
Qed.

Lemma dayOf_saturday e : dayOf e = 5 <-> getDay (start e) = 6.
Proof.
  unfold dayOf. pose proof (getDay_range (start e)).
  destruct (getDay (start e) - 1 =? -1) eqn:E; [apply Z.eqb_eq in E|]; lia.
Qed.

Lemma dayOf_sunday e : dayOf e = 6 <-> getDay (start e) = 0.
Proof.
  unfold dayOf. pose proof (getDay_range (start e)).
  destruct (getDay (start e) - 1 =? -1) eqn:E; [apply Z.eqb_eq in E|]; lia.
Qed.

Lemma groupStep_lookup events grouped e d :
  groupStep events grouped e !! d = (fun l => l ++ onDay d [e]) <$> grouped !! d.
Proof.
  unfold groupStep, onDay. rewrite dayIndex_dayOf. pose proof (dayOf_range e) as Hr.
  replace ((0 <=? dayOf e) && (dayOf e <? 7)) with true.
  2:{ symmetry. apply andb_true_intro. split; [apply Z.leb_le|apply Z.ltb_lt]; lia. }
  simpl. destruct (dayOf e =? Z.of_nat d) eqn:E.
  - apply Z.eqb_eq in E. rewrite E, Nat2Z.id. apply list_lookup_alter_eq.
  - apply Z.eqb_neq in E. rewrite list_lookup_alter_ne by lia.
    destruct (grouped !! d); simpl; [|done]. by rewrite (right_id_L [] (++)).
Qed.

Lemma foldl_groupStep_lookup events d l : forall grouped,
  foldl (groupStep events) grouped l !! d = (fun g => g ++ onDay d l) <$> grouped !! d.
Proof.
  induction l as [|e l IH]; intros grouped; simpl.
  - destruct (grouped !! d); simpl; [|done]. by rewrite (right_id_L [] (++)).
  - rewrite IH, groupStep_lookup. destruct (grouped !! d); simpl; [|done].
    f_equal. unfold onDay. simpl. rewrite <- (assoc_L (++)). f_equal.
    by destruct (dayOf e =? Z.of_nat d).
Qed.

Lemma groupByDay_lookup events d :
  (d < 7)%nat -> groupByDay events !! d = Some (onDay d events).
Proof.
  intros Hd. unfold groupByDay. rewrite foldl_groupStep_lookup.
  by rewrite lookup_replicate_2.
Qed.

(** The packing never meets an empty column, whatever the events. *)
Lemma placeEvent_total columns e :
  Forall (fun col => col <> []) columns ->
  exists i columns', placeEvent columns e = Some (i, columns')
    /\ Forall (fun col => col <> []) columns'.
Proof.
  induction 1 as [|col columns Hcol Hne IH]; simpl.
  - exists 0%nat, [[e]]. split; [done|]. by repeat constructor.
  - destruct (last col) as [lst|] eqn:Hl; simpl; [|by apply last_None in Hl].
    destruct (_ <=? _).
    + exists 0%nat, ((col ++ [e]) :: columns). split; [done|].
      constructor; [by destruct col|done].
    + destruct IH as (i & columns' & -> & Hne'). simpl.
      exists (S i), (col :: columns'). split; [done|by constructor].
Qed.

Lemma placeAll_total sorted : forall columns,
  Forall (fun col => col <> []) columns ->
  exists idxs columns', placeAll columns sorted = Some (idxs, columns')
    /\ length idxs = length sorted.
Proof.
  induction sorted as [|e sorted IH]; intros columns Hne; simpl; [by eauto|].
  destruct (placeEvent_total columns e Hne) as (i & columns1 & -> & Hne1). simpl.
  destruct (IH columns1 Hne1) as (idxs & columns2 & -> & Hlen). simpl.
  exists (i :: idxs), columns2. split; [done|simpl; lia].
Qed.

Lemma layoutDay_total dayEvents :
  exists laid, layoutDay dayEvents = Some laid /\ length laid = length dayEvents.
Proof.
  unfold layoutDay.
  destruct (placeAll_total (sort byStart dayEvents) []) as (idxs & columns & -> & Hlen);
    [constructor|].
  simpl. eexists. split; [done|].
  rewrite length_zip_with, Hlen, sort_length. lia.
Qed.

Lemma eventsByDay_total events :
  exists byDay, eventsByDay events = Some byDay
    /\ Forall2 (fun dayEvents laid => length laid = length dayEvents)
         (groupByDay events) byDay.
Proof.
  unfold eventsByDay. induction (groupByDay events) as [|dayEvents grouped IH].
  - by exists [].
  - destruct IH as (byDay & Hby & Hlen).
    destruct (layoutDay_total dayEvents) as (laid & Hlaid & Hl).
    exists (laid :: byDay). split; [|by constructor].
    apply mapM_Some. constructor; [done|]. by apply mapM_Some.
Qed.

(** The list of day [d] is the laid-out list of the events of that day. *)
Lemma eventsByDay_lookup events byDay d :
  eventsByDay events = Some byDay -> (d < 7)%nat ->
  exists laid, byDay !! d = Some laid /\ layoutDay (onDay d events) = Some laid.
Proof.
  unfold eventsByDay. intros Hby Hd. apply mapM_Some in Hby.
  pose proof (groupByDay_lookup events d Hd) as Hg.
  destruct (Forall2_lookup_l _ _ _ _ _ Hby Hg) as (laid & Hl & Hlaid). by eauto.
Qed.

Lemma onDay_nonempty d events :
  (0 < length (onDay d events))%nat <-> exists e, e ∈ events /\ dayOf e = Z.of_nat d.
Proof.
  unfold onDay. split.
  - destruct (List.filter _ events) as [|e l] eqn:Hf; simpl; [lia|]. intros _.
    assert (In e (List.filter (fun e => dayOf e =? Z.of_nat d) events)) as Hin
      by (rewrite Hf; by left).
    apply filter_In in Hin as [Hin He]. exists e.
    split; [by apply list_elem_of_In|by apply Z.eqb_eq].
  - intros (e & Hin & He).
    assert (In e (List.filter (fun e => dayOf e =? Z.of_nat d) events)) as Hf.
    { apply filter_In. split; [by apply list_elem_of_In|by apply Z.eqb_eq]. }
    destruct (List.filter _ events); [done|simpl; lia].
Qed.

Lemma hasEvents_iff events byDay d :
  (d < 7)%nat ->
  Forall2 (fun dayEvents laid => length laid = length dayEvents)
    (groupByDay events) byDay ->
  hasEvents byDay d = true <-> exists e, e ∈ events /\ dayOf e = Z.of_nat d.
Proof.
  intros Hd Hall. rewrite <- onDay_nonempty. unfold hasEvents.
  pose proof (groupByDay_lookup events d Hd) as Hg.
  destruct (Forall2_lookup_l _ _ _ _ _ Hall Hg) as (laid & Hl & Hlen).
  rewrite Hl. simpl. rewrite Hlen. apply Nat.ltb_lt.
Qed.

Lemma visibleDayIndices_elem byDay (d : nat) :
  d ∈ visibleDayIndices byDay <->
    (d <= 4)%nat
    \/ (d = 5%nat /\ hasEvents byDay 5 = true)
    \/ (d = 6%nat /\ hasEvents byDay 6 = true).
Proof.
  unfold visibleDayIndices.
  destruct (hasEvents byDay 5), (hasEvents byDay 6);
    rewrite !elem_of_app, !elem_of_cons, !elem_of_nil;
    intuition (try discriminate; lia).
Qed.

(** C10.  The day columns that are rendered: Monday to Friday always,
    Saturday exactly when an event of the displayed list starts on a
    Saturday, Sunday exactly when one starts on a Sunday. *)
Theorem visibleDayIndices_weekend (events : list ScheduleEvent) :
  exists byDay,
    eventsByDay events = Some byDay
    /\ forall d : nat,
         d ∈ visibleDayIndices byDay <->
           (d <= 4)%nat
           \/ (d = 5%nat /\ exists e, e ∈ events /\ getDay (start e) = 6)
           \/ (d = 6%nat /\ exists e, e ∈ events /\ getDay (start e) = 0).
Proof.
  destruct (eventsByDay_total events) as (byDay & Hby & Hall).
  exists byDay. split; [done|]. intros d.
  rewrite visibleDayIndices_elem.
  rewrite (hasEvents_iff events byDay 5 ltac:(lia) Hall).
  rewrite (hasEvents_iff events byDay 6 ltac:(lia) Hall).
  assert (forall n z, (forall e, dayOf e = Z.of_nat n <-> getDay (start e) = z) ->
            (exists e, e ∈ events /\ dayOf e = Z.of_nat n)
            <-> (exists e, e ∈ events /\ getDay (start e) = z)) as Hday.
  { intros n z Hnz. split; intros (e & ? & ?); exists e; split; try done; by apply Hnz. }
  rewrite (Hday 5%nat 6 dayOf_saturday), (Hday 6%nat 0 dayOf_sunday). done.
Qed.

End DayFacts.

(** ** Format detection *)

Module FormatFacts.
Import JS Types App Notions.

Lemma split_head_nonempty sep s : exists h t, split sep s = h :: t.
Proof.
  induction s as [|c s (h & t & IH)]; simpl; [by eauto|].
  destruct (Ascii.eqb c sep); [by eauto|]. rewrite IH. simpl. by eauto.
Qed.

Lemma firstLine_withRest line rest :
  countChar newline line = 0%nat -> firstLine (withRest line rest) = line.
Proof.
  unfold firstLine. induction line as [|c line IH]; simpl; intros Hc.
  - by destruct rest as [r|].
  - destruct (Ascii.eqb c newline) eqn:E; [done|]. simpl in Hc.
    specialize (IH Hc).
    assert (split newline (withRest (String c line) rest)
            = consHead c (split newline (withRest line rest))) as ->.
    { destruct rest; simpl; by rewrite E. }
    destruct (split_head_nonempty newline (withRest line rest)) as (h & t & Hs).
    rewrite Hs in *. simpl in *. by subst.
Qed.

(** C7.  The format is decided by the first line alone: whatever follows the
    first line break, the text is parsed as CSV when the first line holds
    strictly more commas than tabs, and as TSV otherwise, ties and the
    absence of both included. *)
Theorem detectFormat_first_line (line : string) (rest : option string) :
  countChar newline line = 0%nat ->
  let text := withRest line rest in
  let commas := countChar ","%char line in
  let tabs := countChar tab line in
  detectFormat text = (if (tabs <? commas)%nat then csv else tsv)
  /\ ((tabs < commas)%nat ->
      parseRows text = List.filter (existsb nonEmpty) (parseCSV text))
  /\ ((commas <= tabs)%nat ->
      parseRows text =
        List.filter (existsb nonEmpty)
          (map (fun l => map trim (split tab l)) (split newline text))).
Proof.
  intros Hline text commas tabs.
  assert (detectFormat text = (if (tabs <? commas)%nat then csv else tsv)) as Hd.
  { unfold detectFormat, text. by rewrite firstLine_withRest. }
  split; [done|]. unfold parseRows. rewrite Hd. split; intros H.
  - by replace (tabs <? commas)%nat with true by (symmetry; apply Nat.ltb_lt; lia).
  - by replace (tabs <? commas)%nat with false by (symmetry; apply Nat.ltb_ge; lia).
Qed.

Lemma detectFormat_first_line_witness :
  detectFormat (withRest sampleHeader (Some "1/9/2025 9:00,1/9/2025 10:00,Yoga,,10,1,0,5"))
  = csv.
Proof.
  exact (proj1 (detectFormat_first_line sampleHeader
                  (Some "1/9/2025 9:00,1/9/2025 10:00,Yoga,,10,1,0,5") eq_refl)).
Defined.

End FormatFacts.

(** ** The event decoder *)

Module DecoderFacts.
Import JS Types App Notions.

Lemma getColor_spec title (colorMap : gmap string Color) :
  getColor title colorMap =
    inr match colorMap !! title with
        | Some c => (c, colorMap)
        | None =>
            let c := paletteEntry (size colorMap mod 8) in (c, <[title := c]> colorMap)
        end.
Proof.
  unfold getColor. destruct (colorMap !! title) as [c|] eqn:Hl.
  - by rewrite Hl.
  - by rewrite lookup_insert_eq.
Qed.

(** A row that passes the column-count and date/time checks and whose start
    is a valid date is decoded. *)
Lemma decodeRow_accepted toISOString index columns (colorMap : gmap string Color)
  start end_ :
  (8 <= length columns)%nat ->
  readField (columns !!! 0%nat) = inr (Some start) ->
  readField (columns !!! 1%nat) = inr (Some end_) ->
  isInvalidDate start = false ->
  decodeRow toISOString index columns colorMap =
    let title := columns !!! 2%nat in
    let colorMap' :=
      match colorMap !! title with
      | Some _ => colorMap
      | None => <[title := paletteEntry (size colorMap mod 8)]> colorMap
      end in
    let c := default (paletteEntry (size colorMap mod 8)) (colorMap !! title) in
    inr ({| id := toISOString start +:+ "-" +:+ title +:+ "-" +:+ showNat index;
            start := start;
            end_ := end_;
            title := title;
            description := columns !!! 3%nat;
            capacity := orZero (parseInt (columns !!! 4%nat));
            total := orZero (parseInt (columns !!! 5%nat));
            waiting := orZero (parseInt (columns !!! 6%nat));
            price := orZeroNumber (parseFloat (columns !!! 7%nat));
            color := classes c;
            colIndex := None;
            totalCols := None |}, colorMap').
Proof.
  intros Hlen Hs He Hvalid. unfold decodeRow, readField, toISOStringOf in *.
  replace (length columns <? 8)%nat with false by (symmetry; apply Nat.ltb_ge; lia).
  rewrite Hs, He. simpl. rewrite getColor_spec, Hvalid.
  by destruct (colorMap !! (columns !!! 2%nat)).
Qed.


(** C8, as stated, fails: [farRow] has 8 fields, both its date/time fields
    pass the check of the decoder, its capacity is not a number, and the row
    is not decoded: its start is beyond the dates a Date object can hold,
    and the decode of the batch ends with the RangeError of
    [start.toISOString()]. *)
Lemma out_of_range_start_aborts :
  (8 <= length farRow)%nat
  /\ readField (farRow !!! 0%nat) = inr (Some (newDate 300000 0 1 0 0))
  /\ readField (farRow !!! 1%nat) = inr (Some (newDate 300000 0 1 1 0))
  /\ parseInt (farRow !!! 4%nat) = None
  /\ decodeRow (fun _ => EmptyString) 0 farRow ∅ = inl (RangeError "Invalid time value")
  /\ events (handleGenerate (fun _ => EmptyString) farInput initialState) = []
  /\ error (handleGenerate (fun _ => EmptyString) farInput initialState)
     = Some "Failed to parse data: Invalid time value".
Proof. split_and!; [simpl; lia|reflexivity..]. Qed.

(** C8, amended.  In a row that passes the column-count and date/time checks
    and whose start is a date that a Date object can hold, a value of fields
    4 to 6 that [parseInt] cannot read and a value of field 7 that
    [parseFloat] cannot read become 0: the row is decoded, and the decode of
    the batch goes on with the rows that follow. *)
Theorem numeric_fields_default_to_zero (toISOString : Date -> string) (index : nat)
  (columns : list string) (colorMap : gmap string Color) (start end_ : Date) :
  (8 <= length columns)%nat ->
  readField (columns !!! 0%nat) = inr (Some start) ->
  readField (columns !!! 1%nat) = inr (Some end_) ->
  isInvalidDate start = false ->
  exists event colorMap',
    decodeRow toISOString index columns colorMap = inr (event, colorMap')
    /\ (parseInt (columns !!! 4%nat) = None -> capacity event = 0)
    /\ (parseInt (columns !!! 5%nat) = None -> total event = 0)
    /\ (parseInt (columns !!! 6%nat) = None -> waiting event = 0)
    /\ (parseFloat (columns !!! 7%nat) = NaN -> price event = Finite 0)
    /\ (forall more,
          decodeRows toISOString index (columns :: more) colorMap =
            '(rest, colorMap'') ← decodeRows toISOString (S index) more colorMap';
            mret (event :: rest, colorMap'')).
Proof.
  intros Hlen Hs He Hvalid.
  pose proof (decodeRow_accepted toISOString index columns colorMap _ _ Hlen Hs He Hvalid)
    as Hd.
  simpl in Hd. eexists _, _. split; [exact Hd|]. simpl.
  split_and!; try (by intros ->).
  intros more. simpl. by rewrite Hd.
Qed.

Lemma numeric_fields_default_to_zero_witness :
  exists event colorMap',
    decodeRow (fun _ => EmptyString) 0 abcRow ∅ = inr (event, colorMap')
    /\ capacity event = 0.
Proof.
  destruct (numeric_fields_default_to_zero (fun _ => EmptyString) 0 abcRow ∅
              (newDate 2025 8 1 9 0) (newDate 2025 8 1 10 0))
    as (event & colorMap' & Hd & Hc & _);
    [simpl; lia|reflexivity|reflexivity|reflexivity|].
  exists event, colorMap'. split; [exact Hd|]. apply Hc. reflexivity.
Defined.

(** *** Colours *)

Lemma consistent_empty : consistent [] ∅.
Proof.
  split_and!.
  - intros t. rewrite lookup_empty. split; [intros _; apply not_elem_of_nil|done].
  - rewrite map_size_empty. reflexivity.
  - intros j t Hj. by rewrite lookup_nil in Hj.
Qed.

Lemma distinct_snoc_old seen t : t ∈ seen -> distinct (seen ++ [t]) = distinct seen.
Proof.
  intros Hin. unfold distinct. f_equal. rewrite list_to_set_app_L. simpl.
  apply (elem_of_list_to_set (C:=gset string)) in Hin.
  rewrite (right_id_L ∅ (∪)), (comm_L (∪)).
  by apply subseteq_union_1_L, singleton_subseteq_l.
Qed.

Lemma distinct_snoc_new seen t : t ∉ seen -> distinct (seen ++ [t]) = S (distinct seen).
Proof.
  intros Hin. unfold distinct. rewrite list_to_set_app_L. simpl.
  rewrite (right_id_L ∅ (∪)), size_union, size_singleton; [lia|].
  rewrite <- (elem_of_list_to_set (C:=gset string)) in Hin. set_solver.
Qed.

Lemma remember_subseteq t m : m ⊆ remember t m.
Proof.
  unfold remember. destruct (m !! t) eqn:Hl; [done|]. by apply insert_subseteq.
Qed.

Lemma consistent_snoc seen m t :
  consistent seen m -> consistent (seen ++ [t]) (remember t m).
Proof.
  intros (Hdom & Hsize & Hfirst). unfold remember.
  destruct (m !! t) as [c|] eqn:Hl.
  - assert (t ∈ seen) as Hin.
    { destruct (decide (t ∈ seen)) as [|Hn]; [done|]. apply Hdom in Hn. congruence. }
    split_and!.
    + intros t'. rewrite Hdom. rewrite not_elem_of_app, list_elem_of_singleton.
      split; [|by intros [? _]]. intros Hn. split; [done|]. by intros ->.
    + by rewrite distinct_snoc_old.
    + intros j t' Hj Hn.
      destruct (decide (j < length seen)%nat) as [Hlt|Hge].
      * rewrite lookup_app_l in Hj by done. rewrite take_app_le in Hn |- * by lia.
        by apply Hfirst.
      * rewrite take_app_ge in Hn by lia. apply not_elem_of_app in Hn as [Hn _].
        rewrite lookup_app_r in Hj by lia.
        apply list_lookup_singleton_Some in Hj as [_ <-]. done.
  - assert (t ∉ seen) as Hin by (by apply Hdom).
    split_and!.
    + intros t'. rewrite not_elem_of_app, list_elem_of_singleton, <- Hdom.
      rewrite lookup_insert_None. split; intros [? ?]; (split; [done|congruence]).
    + rewrite map_size_insert_None by done. by rewrite distinct_snoc_new, Hsize.
    + intros j t' Hj Hn.
      destruct (decide (j < length seen)%nat) as [Hlt|Hge].
      * rewrite lookup_app_l in Hj by done. rewrite take_app_le in Hn |- * by lia.
        rewrite lookup_insert_ne; [by apply Hfirst|].
        intros ->. apply Hin. by eapply list_elem_of_lookup_2.
      * rewrite lookup_app_r in Hj by lia.
        apply list_lookup_singleton_Some in Hj as [Hj <-].
        assert (j = length seen) as -> by lia.
        rewrite take_app_length, lookup_insert_eq. by rewrite Hsize.
Qed.

(** What a decoded row took from the colour map. *)
Lemma decodeRow_color toISOString index columns (m m' : gmap string Color) e :
  decodeRow toISOString index columns m = inr (e, m') ->
  title e = columns !!! 2%nat
  /\ m' = remember (title e) m
  /\ exists c, m' !! title e = Some c /\ color e = classes c.
Proof.
  unfold decodeRow, toISOStringOf. destruct (length columns <? 8)%nat; [done|].
  destruct (parseDate _ _) as [?|[start|]]; simpl; try done;
    destruct (parseDate _ _) as [?|[end_|]]; simpl; try done.
  rewrite getColor_spec. simpl. unfold remember.
  destruct (isInvalidDate _); [by destruct (m !! (columns !!! 2%nat))|].
  destruct (m !! (columns !!! 2%nat)) as [c|] eqn:Hl; simpl; intros [= <- <-]; simpl.
  - rewrite Hl. eauto.
  - rewrite Hl, lookup_insert_eq. eauto.
Qed.

Lemma decodeRows_colors toISOString rows : forall index (m m' : gmap string Color) seen events,
  consistent seen m ->
  decodeRows toISOString index rows m = inr (events, m') ->
  consistent (seen ++ titles rows) m'
  /\ m ⊆ m'
  /\ Forall2 (fun columns e =>
       title e = columns !!! 2%nat
       /\ exists c, m' !! title e = Some c /\ color e = classes c) rows events.
Proof.
  induction rows as [|columns rows IH]; intros index m m' seen events Hc; simpl.
  - intros [= <- <-]. rewrite (right_id_L [] (++)). by split_and!.
  - destruct (decodeRow toISOString index columns m) as [?|[e m1]] eqn:Hrow; [done|].
    simpl.
    destruct (decodeRows toISOString (S index) rows m1) as [?|[rest m2]] eqn:Hrest;
      [done|].
    simpl. intros [= <- <-].
    apply decodeRow_color in Hrow as (Ht & -> & c & Hlc & Hcol).
    pose proof (consistent_snoc seen m (title e) Hc) as Hc1.
    destruct (IH _ _ _ _ _ Hc1 Hrest) as (Hc2 & Hsub & Hall).
    rewrite Ht in Hc2. rewrite <- (assoc_L (++)) in Hc2.
    split_and!; [done| |].
    + etrans; [apply remember_subseteq|done].
    + constructor; [|done]. split; [done|]. exists c. split; [|done].
      by eapply lookup_weaken.
Qed.

Lemma filter_hasStartAndEnd l : List.filter hasStartAndEnd l = l.
Proof. induction l as [|e l IH]; simpl; [done|]. by rewrite IH. Qed.

Lemma decode_colors toISOString rows events :
  decode toISOString rows = inr events ->
  exists m, consistent (titles rows) m
    /\ Forall2 (fun columns e =>
         title e = columns !!! 2%nat
         /\ exists c, m !! title e = Some c /\ color e = classes c) rows events.
Proof.
  unfold decode.
  destruct (decodeRows toISOString 0 rows ∅) as [?|[parsed m]] eqn:Hd; [done|].
  simpl. rewrite filter_hasStartAndEnd. intros [= <-].
  destruct (decodeRows_colors _ _ _ _ _ [] _ consistent_empty Hd) as (Hc & _ & Hall).
  by exists m.
Qed.

(** The colour of every event of a decoded batch, from the place where its
    title first appears. *)
Lemma decode_color_first toISOString rows events i j e :
  decode toISOString rows = inr events ->
  events !! i = Some e ->
  titles rows !! j = Some (title e) ->
  title e ∉ take j (titles rows) ->
  color e = classes (paletteEntry (distinct (take j (titles rows)) mod 8)).
Proof.
  intros Hd Hi Hj Hn.
  destruct (decode_colors _ _ _ Hd) as (m & (_ & _ & Hfirst) & Hall).
  destruct (Forall2_lookup_r _ _ _ _ _ Hall Hi) as (columns & _ & _ & c & Hc & ->).
  rewrite (Hfirst j (title e) Hj Hn) in Hc. by injection Hc as <-.
Qed.

(** C9.  In a batch decoded from an empty colour map, the colour of an event
    is the palette entry whose index is the number of distinct titles seen
    before the first appearance of its title, modulo 8; the title of the
    event is the title of its row, compared as a string; every event with
    the same title has the same colour; and the entries 0 and 1, which the
    first and the second distinct title receive, differ. *)
Theorem color_by_first_appearance (toISOString : Date -> string)
  (rows : list (list string)) (events : list ScheduleEvent) (i j : nat)
  (e : ScheduleEvent) :
  decode toISOString rows = inr events ->
  events !! i = Some e ->
  titles rows !! j = Some (title e) ->
  title e ∉ take j (titles rows) ->
  titles rows !! i = Some (title e)
  /\ color e = classes (paletteEntry (distinct (take j (titles rows)) mod 8))
  /\ (forall i' e', events !! i' = Some e' -> title e' = title e -> color e' = color e)
  /\ classes (paletteEntry 0) <> classes (paletteEntry 1).
Proof.
  intros Hd Hi Hj Hn. split_and!.
  - destruct (decode_colors _ _ _ Hd) as (m & _ & Hall).
    destruct (Forall2_lookup_r _ _ _ _ _ Hall Hi) as (columns & Hrow & -> & _).
    unfold titles. by rewrite list_lookup_fmap, Hrow.
  - by eapply decode_color_first.
  - intros i' e' Hi' Ht.
    rewrite (decode_color_first _ _ _ i j e Hd Hi Hj Hn).
    rewrite <- Ht in Hj, Hn. by eapply decode_color_first.
  - done.
Qed.

Lemma color_by_first_appearance_witness :
  exists e, decodedSample !! 2%nat = Some e
    /\ color e = "bg-rose-200 border-rose-300 text-rose-800".
Proof.
  destruct (decodedSample !! 2%nat) as [e|] eqn:He; [|by vm_compute in He].
  exists e. split; [done|].
  assert (decode (fun _ => EmptyString) [yogaRow; pilatesRow; yogaRow] = inr decodedSample)
    as Hd by reflexivity.
  assert (titles [yogaRow; pilatesRow; yogaRow] !! 0%nat = Some (title e)) as Hj.
  { vm_compute in He. injection He as <-. reflexivity. }
  assert (title e ∉ take 0 (titles [yogaRow; pilatesRow; yogaRow])) as Hn
    by apply not_elem_of_nil.
  exact (proj1 (proj2 (color_by_first_appearance _ _ _ 2 0 e Hd He Hj Hn))).
Defined.

(** *** The date/time check *)













(** A row of the kind that the amended statement leaves out: in [pmRow]
    the minute of the start reads [00pm], which is not a valid integer;
    [parseInt] reads 0 in it, and the row is decoded with a start at 9:00. *)
Lemma trailing_text_accepted (toISOString : Date -> string) :
  timeParts (pmRow !!! 0%nat) = ["9"; "00pm"]
  /\ validInteger "00pm" = false
  /\ exists event colorMap,
       decodeRow toISOString 0 pmRow ∅ = inr (event, colorMap)
       /\ start event = newDate 2025 8 1 9 0.
Proof. split_and!; [reflexivity..|]. by eexists _, _. Qed.

(** *** The first row that fails *)

Lemma decodeRow_short toISOString index columns (colorMap : gmap string Color) :
  (length columns < 8)%nat ->
  decodeRow toISOString index columns colorMap =
    inl (Error (notEnoughColumns index (length columns))).
Proof.
  intros Hlen. unfold decodeRow.
  by replace (length columns <? 8)%nat with true by (symmetry; apply Nat.ltb_lt; lia).
Qed.

(** The rows before the first failure are decoded, the failure ends the decode. *)
Lemma decodeRows_first_failure toISOString earlier : forall index row later
  (colorMap colorMap' : gmap string Color) events e,
  decodeRows toISOString index earlier colorMap = inr (events, colorMap') ->
  decodeRow toISOString (index + length earlier) row colorMap' = inl e ->
  decodeRows toISOString index (earlier ++ row :: later) colorMap = inl e.
Proof.
  induction earlier as [|columns earlier IH];
    intros index row later colorMap colorMap' events e; simpl.
  - intros [= <- <-]. rewrite Nat.add_0_r. by intros ->.
  - destruct (decodeRow toISOString index columns colorMap) as [?|[ev m1]]; [done|].
    simpl.
    destruct (decodeRows toISOString (S index) earlier m1) as [?|[evs m2]] eqn:Hd;
      [done|].
    simpl. intros [= <- <-] Hrow.
    replace (index + S (length earlier))%nat with (S index + length earlier)%nat in Hrow
      by lia.
    by rewrite (IH _ _ later _ _ _ _ Hd Hrow).
Qed.

(** C5, as stated, fails: the first row with fewer than 8 fields is the
    second data row, and the decode fails with the date/time error of the
    first data row, not with the column-count error of row 3. *)
Lemma short_row_after_bad_date :
  [badDateRow; shortRow] !! 1%nat = Some shortRow
  /\ (length shortRow < 8)%nat
  /\ (forall j row, (j < 1)%nat -> [badDateRow; shortRow] !! j = Some row ->
        (8 <= length row)%nat)
  /\ decode (fun _ => EmptyString) [badDateRow; shortRow]
       = inl (Error (invalidDateTime 0 "x 9:00" "1/9/2025 10:00"))
  /\ decode (fun _ => EmptyString) [badDateRow; shortRow]
       <> inl (Error (notEnoughColumns 1 (length shortRow))).
Proof.
  split_and!; [done|simpl; lia| |reflexivity|by vm_compute].
  intros [|j] row Hj; [|lia]. intros [= <-]. simpl. lia.
Qed.

(** C5, amended.  When the data row at index [i] has fewer than 8 fields and
    every data row before it is decoded without error, the decode of the
    batch fails with the message
    [Row i+2: Not enough columns. Expected 8, found k.], where [k] is the
    number of fields of that row; the handler then shows that message after
    the prefix [Failed to parse data: ] and leaves the collection empty. *)
Theorem not_enough_columns_first_failure (toISOString : Date -> string)
  (rows : list (list string)) (i : nat) (row : list string)
  (earlier : list ScheduleEvent) (colorMap : gmap string Color) :
  rows !! i = Some row ->
  (length row < 8)%nat ->
  decodeRows toISOString 0 (take i rows) ∅ = inr (earlier, colorMap) ->
  let msg :=
    "Row " +:+ showNat (i + 2) +:+ ": Not enough columns. Expected 8, found "
    +:+ showNat (length row) +:+ "." in
  decode toISOString rows = inl (Error msg)
  /\ (forall inp st rawData header,
        readInput inp = Some (inr rawData) ->
        parseRows rawData = header :: rows ->
        events (handleGenerate toISOString inp st) = []
        /\ error (handleGenerate toISOString inp st)
           = Some ("Failed to parse data: " +:+ msg)).
Proof.
  intros Hrow Hlen Hearlier msg.
  assert (decode toISOString rows = inl (Error msg)) as Hdecode.
  { unfold decode. rewrite <- (take_drop_middle rows i row Hrow).
    erewrite decodeRows_first_failure; [done|exact Hearlier|].
    rewrite length_take_le by (apply lookup_lt_Some in Hrow; lia).
    by apply decodeRow_short. }
  split; [done|]. intros inp st rawData header Hin Hparse.
  unfold handleGenerate, generate. rewrite Hin. simpl. rewrite Hparse.
  replace (length (header :: rows) <? 2)%nat with false.
  2:{ symmetry. apply Nat.ltb_ge. apply lookup_lt_Some in Hrow. simpl. lia. }
  simpl. rewrite drop_0, Hdecode. done.
Qed.

Lemma not_enough_columns_first_failure_witness :
  events (handleGenerate (fun _ => EmptyString) shortInput initialState) = []
  /\ error (handleGenerate (fun _ => EmptyString) shortInput initialState)
     = Some "Failed to parse data: Row 2: Not enough columns. Expected 8, found 6.".
Proof.
  assert ([shortRow] !! 0%nat = Some shortRow) as Hrow by reflexivity.
  assert (length shortRow < 8)%nat as Hlen by (simpl; lia).
  assert (decodeRows (fun _ => EmptyString) 0 (take 0 [shortRow]) ∅ = inr ([], ∅))
    as Hearlier by reflexivity.
  exact (proj2 (not_enough_columns_first_failure _ _ _ _ _ _ Hrow Hlen Hearlier)
           shortInput initialState _ _ eq_refl eq_refl).
Defined.

(** *** Durations *)

(** C4 fails on the bulk decoder: a row whose end lies before its start is
    decoded without error and becomes the displayed collection. *)
Theorem decode_accepts_reversed_times (toISOString : Date -> string) :
  exists e,
    events (handleGenerate toISOString reversedInput initialState) = [e]
    /\ error (handleGenerate toISOString reversedInput initialState) = None
    /\ start e = newDate 2025 8 1 10 0
    /\ end_ e = newDate 2025 8 1 9 0
    /\ getTime (end_ e) < getTime (start e).
Proof. eexists. split_and!; [reflexivity|reflexivity|reflexivity|reflexivity|done]. Qed.

(** The same holds for a row of zero duration. *)
Lemma decode_accepts_zero_duration (toISOString : Date -> string) :
  exists e colorMap,
    decodeRows toISOString 0
      [["1/9/2025 9:00"; "1/9/2025 9:00"; "Yoga"; EmptyString; "10"; "1"; "0"; "5"]] ∅
    = inr ([e], colorMap)
    /\ getTime (end_ e) = getTime (start e).
Proof. eexists _, _. split; reflexivity. Qed.

(** The manual path does check: a form whose end is not after its start is
    answered with an alert, and nothing is saved. *)
Lemma handleSave_blocks (formData : Schedule.FormData) (s e : Date) :
  Schedule.form_start formData = Some s ->
  Schedule.form_end formData = Some e ->
  getTime e <= getTime s ->
  exists msg, Schedule.handleSave (Some formData) = Schedule.Alerted msg.
Proof.
  intros Hs He Hle. unfold Schedule.handleSave. rewrite Hs, He.
  destruct (Schedule.form_title formData) as [[|c t]|]; [by eauto| |by eauto].
  replace (getTime e <=? getTime s) with true by (symmetry; by apply Z.leb_le).
  by eauto.
Qed.

End DecoderFacts.

(** ** The scenario of the two overlapping rows *)

Module Scenarios.
Import JS Types App Notions.

(** The rows for Yoga, 9:00 to 10:00, and Pilates, 9:30 to 10:30, on Monday
    1 September 2025: two columns, [totalCols = 2] for both, and the first two
    palette entries. *)
Example overlapping_rows_two_columns :
  (events ← (match decode (fun _ => EmptyString) [yogaRow; pilatesRow] with
             | inr events => Some events
             | inl _ => None
             end);
   laid ← Schedule.layoutDay events;
   Some (map (fun e => (title e, colIndex e, totalCols e, color e)) laid))
  = Some [ ("Yoga", Some 0%nat, Some 2%nat, "bg-rose-200 border-rose-300 text-rose-800");
           ("Pilates", Some 1%nat, Some 2%nat,
            "bg-amber-200 border-amber-300 text-amber-800") ].
Proof. reflexivity. Qed.

(** Both rows fall on a Monday, so the weekend columns are not rendered. *)
Example overlapping_rows_weekdays_only :
  (events ← (match decode (fun _ => EmptyString) [yogaRow; pilatesRow] with
             | inr events => Some events
             | inl _ => None
             end);
   Schedule.visibleDayIndices <$> Schedule.eventsByDay events)
  = Some [0; 1; 2; 3; 4]%nat.
Proof. reflexivity. Qed.

(** What [parseInt] and [parseFloat] make of some fields. *)
Example parseInt_samples :
  parseInt "abc" = None /\ parseInt EmptyString = None
  /\ parseInt "12abc" = Some 12 /\ parseInt " -7" = Some (-7).
Proof. by split_and!. Qed.

Example parseFloat_samples :
  parseFloat "abc" = NaN /\ parseFloat "." = NaN
  /\ orZeroNumber (parseFloat "abc") = Finite 0
  /\ parseFloat "5" = Finite 5.
Proof. by split_and!. Qed.

End Scenarios.

(** ** More on the window, the union and the segments *)

Module TimelineMore.
Import JS Types Schedule Notions SortFacts TimelineFacts.

Lemma minutesOfDay_range d : 0 <= minutesOfDay d < 1440.
Proof.
  unfold minutesOfDay, getHours, getMinutes, msPerDay, msPerHour, msPerMinute.
  Z.div_mod_to_equations. lia.
Qed.

(** The scan keeps the bounds it has and takes in every event it meets;
    each bound is the initial one or the minute of an event. *)
Lemma foldl_widen rest : forall a b a' b',
  foldl widen (a, b) rest = (a', b') ->
  a' <= a /\ b <= b'
  /\ Forall (fun e => a' <= startMinute e /\ endMinute e <= b') rest
  /\ (a' = a \/ exists e, e ∈ rest /\ a' = startMinute e)
  /\ (b' = b \/ exists e, e ∈ rest /\ b' = endMinute e).
Proof.
  induction rest as [|e rest IH]; intros a b a' b'; simpl.
  - intros [= <- <-]. split_and!; [lia|lia|constructor|by left|by left].
  - intros Hf. apply IH in Hf as (Ha & Hb & Hall & Hmin & Hmax).
    fold (startMinute e) in *. fold (endMinute e) in *.
    destruct (startMinute e <? a) eqn:Ea; destruct (b <? endMinute e) eqn:Eb;
      try apply Z.ltb_lt in Ea; try apply Z.ltb_ge in Ea;
      try apply Z.ltb_lt in Eb; try apply Z.ltb_ge in Eb.
    all: split_and!; [lia|lia|constructor; [lia|done]| |].
    all: try (destruct Hmin as [->|(x & ? & ?)];
              [first [by left | right; exists e; split; [left|done]]
              |right; exists x; split; [by right|done]]).
    all: destruct Hmax as [->|(x & ? & ?)];
           [first [by left | right; exists e; split; [left|done]]
           |right; exists x; split; [by right|done]].
Qed.

Lemma floorHour_spec m : floorHour m <= m < floorHour m + 60 /\ floorHour m mod 60 = 0.
Proof. unfold floorHour. Z.div_mod_to_equations. lia. Qed.

Lemma ceilHour_spec m : ceilHour m - 60 < m <= ceilHour m /\ ceilHour m mod 60 = 0.
Proof. unfold ceilHour. Z.div_mod_to_equations. lia. Qed.

(** The window of a non-empty event list: full hours, every event inside,
    tight on both sides. *)
Lemma visibleWindow_spec (events : list ScheduleEvent) :
  events <> [] ->
  let vs := (visibleWindow events).1 in
  let ve := (visibleWindow events).2 in
  0 <= vs /\ ve <= 1440
  /\ vs mod 60 = 0 /\ ve mod 60 = 0
  /\ Forall (fun e => vs <= startMinute e /\ endMinute e <= ve) events
  /\ (exists e, e ∈ events /\ startMinute e < vs + 60)
  /\ (exists e, e ∈ events /\ ve - 60 < endMinute e).
Proof.
  destruct events as [|e0 rest]; [done|]. intros _. simpl.
  destruct (foldl widen _ rest) as [minStart maxEnd] eqn:Hf. simpl.
  apply foldl_widen in Hf as (Ha & Hb & Hall & Hmin & Hmax).
  fold (startMinute e0) in *. fold (endMinute e0) in *.
  pose proof (floorHour_spec minStart) as [Hfl Hfm].
  pose proof (ceilHour_spec maxEnd) as [Hcl Hcm].
  assert (0 <= minStart < 1440) as Rmin.
  { destruct Hmin as [->|(x & _ & ->)]; apply minutesOfDay_range. }
  assert (0 <= maxEnd < 1440) as Rmax.
  { destruct Hmax as [->|(x & _ & ->)]; apply minutesOfDay_range. }
  assert (0 <= floorHour minStart) as Hf0
    by (unfold floorHour; Z.div_mod_to_equations; lia).
  assert (ceilHour maxEnd <= 1440) as Hc0
    by (unfold ceilHour; Z.div_mod_to_equations; lia).
  rewrite Z.max_r by lia. rewrite Z.min_r by lia.
  split_and!; [lia|lia|done|done| | |].
  - constructor; [lia|]. eapply Forall_impl; [exact Hall|]. simpl. intros; lia.
  - destruct Hmin as [->|(x & Hx & ->)].
    + exists e0. split; [left|lia].
    + exists x. split; [by right|lia].
  - destruct Hmax as [->|(x & Hx & ->)].
    + exists e0. split; [left|lia].
    + exists x. split; [by right|lia].
Qed.



(** *** The union *)

Lemma unionOf_nil : unionOf [] [].
Proof.
  split_and!.
  - intros m t Hm. by apply elem_of_nil in Hm.
  - intros iv Hiv. by apply elem_of_nil in Hiv.
  - intros m Hm. by apply elem_of_nil in Hm.
Qed.

Lemma mergeStep_unionOf merged seen iv :
  unionOf merged seen ->
  (forall p, p ∈ seen -> Interval.start p <= Interval.start iv) ->
  unionOf (mergeStep merged iv) (seen ++ [iv]).
Proof.
  intros (Hsound & Hcomplete & Hstart) Hsorted. unfold mergeStep.
  destruct (last merged) as [lst|] eqn:Hl.
  2:{ apply last_None in Hl as ->. simpl.
      assert (seen = []) as ->.
      { destruct seen as [|p seen]; [done|].
        destruct (Hcomplete p ltac:(left)) as (m & Hm & _). by apply elem_of_nil in Hm. }
      split_and!.
      - intros m t ->%list_elem_of_singleton Ht. exists iv. split; [left|done].
      - intros p ->%list_elem_of_singleton. exists iv. split; [left|]. split; lia.
      - intros m ->%list_elem_of_singleton. exists iv. split; [left|done]. }
  apply last_Some in Hl as [m' ->].
  assert (lst ∈ m' ++ [lst]) as Hlst by (apply elem_of_app; right; left).
  destruct (Interval.end_ lst <? Interval.start iv) eqn:Hc.
  - split_and!.
    + intros m t Hm Ht. apply elem_of_app in Hm as [Hm| ->%list_elem_of_singleton].
      * destruct (Hsound m t Hm Ht) as (p & Hp & Htp).
        exists p. split; [apply elem_of_app; by left|done].
      * exists iv. split; [apply elem_of_app; right; left|done].
    + intros p Hp. apply elem_of_app in Hp as [Hp| ->%list_elem_of_singleton].
      * destruct (Hcomplete p Hp) as (m & Hm & Hmp).
        exists m. split; [apply elem_of_app; by left|done].
      * exists iv. split; [apply elem_of_app; right; left|]. split; lia.
    + intros m Hm. apply elem_of_app in Hm as [Hm| ->%list_elem_of_singleton].
      * destruct (Hstart m Hm) as (p & Hp & Hmp).
        exists p. split; [apply elem_of_app; by left|done].
      * exists iv. split; [apply elem_of_app; right; left|done].
  - apply Z.ltb_ge in Hc. rewrite insert_last.
    set (ext := Interval.mk (Interval.start lst)
                  (Z.max (Interval.end_ lst) (Interval.end_ iv))).
    destruct (Hstart lst Hlst) as (p0 & Hp0 & Hlp0).
    pose proof (Hsorted p0 Hp0) as Hle.
    split_and!.
    + intros m t Hm Ht. apply elem_of_app in Hm as [Hm| ->%list_elem_of_singleton].
      * destruct (Hsound m t ltac:(apply elem_of_app; by left) Ht) as (p & Hp & Htp).
        exists p. split; [apply elem_of_app; by left|done].
      * unfold inside in Ht. simpl in Ht.
        destruct (decide (t < Interval.end_ lst)) as [Hlt|Hge].
        -- destruct (Hsound lst t Hlst ltac:(unfold inside; lia)) as (p & Hp & Htp).
           exists p. split; [apply elem_of_app; by left|done].
        -- exists iv. split; [apply elem_of_app; right; left|]. unfold inside. lia.
    + intros p Hp. apply elem_of_app in Hp as [Hp| ->%list_elem_of_singleton].
      * destruct (Hcomplete p Hp) as (m & Hm & Hmp).
        apply elem_of_app in Hm as [Hm| ->%list_elem_of_singleton].
        -- exists m. split; [apply elem_of_app; by left|done].
        -- exists ext. split; [apply elem_of_app; right; left|].
           unfold contains in *. simpl. lia.
      * exists ext. split; [apply elem_of_app; right; left|].
        unfold contains. simpl. lia.
    + intros m Hm. apply elem_of_app in Hm as [Hm| ->%list_elem_of_singleton].
      * destruct (Hstart m ltac:(apply elem_of_app; by left)) as (p & Hp & Hmp).
        exists p. split; [apply elem_of_app; by left|done].
      * exists p0. split; [apply elem_of_app; by left|done].
Qed.

Lemma foldl_mergeStep_unionOf rest : forall merged seen,
  unionOf merged seen ->
  StronglySorted (key_le Interval.start) rest ->
  (forall p r, p ∈ seen -> r ∈ rest -> Interval.start p <= Interval.start r) ->
  unionOf (foldl mergeStep merged rest) (seen ++ rest).
Proof.
  induction rest as [|iv rest IH]; intros merged seen Hu Hs Hbefore; simpl.
  - by rewrite (right_id_L [] (++)).
  - apply StronglySorted_inv in Hs as [Hs Hiv].
    rewrite (cons_middle iv seen rest), (assoc_L (++)). apply IH; [|done|].
    + apply mergeStep_unionOf; [done|]. intros p Hp. apply Hbefore; [done|left].
    + intros p r Hp Hr. apply elem_of_app in Hp as [Hp| ->%list_elem_of_singleton].
      * apply Hbefore; [done|by right].
      * rewrite Forall_forall in Hiv. by apply Hiv.
Qed.

Lemma inside_clipped vs ve e t :
  (exists iv, iv ∈ clipped vs ve e /\ inside t iv)
  <-> Z.max vs (startMinute e) <= t < Z.min ve (endMinute e).
Proof.
  unfold clipped, inside. fold (startMinute e). fold (endMinute e).
  destruct (_ <? _) eqn:Hc.
  - split.
    + by intros (iv & ->%list_elem_of_singleton & Ht).
    + intros Ht. eexists. split; [left|done].
  - apply Z.ltb_ge in Hc. split; [|lia]. intros (iv & Hiv & _). by apply elem_of_nil in Hiv.
Qed.

Lemma unionIntervals_unionOf events vs ve :
  unionOf (unionIntervals events vs ve)
    (sort byIntervalStart (flat_map (clipped vs ve) events)).
Proof.
  unfold unionIntervals.
  apply (foldl_mergeStep_unionOf _ [] [] unionOf_nil).
  - apply (sort_key Interval.start).
  - intros p r Hp. by apply elem_of_nil in Hp.
Qed.

Lemma clipped_sorted_elem events vs ve iv :
  iv ∈ sort byIntervalStart (flat_map (clipped vs ve) events)
  <-> exists e, e ∈ events /\ iv ∈ clipped vs ve e.
Proof.
  rewrite sort_perm, list_elem_of_In, in_flat_map.
  split; intros (e & He & Hiv); exists e; by rewrite ?list_elem_of_In in *.
Qed.

(** X2.  The merged intervals are the union of the clipped events: a minute
    lies in a merged interval exactly when it lies between the start and the
    end minute of some event, both clipped to the window; and the merged
    intervals come in order, each ending strictly before the next starts. *)
Theorem unionIntervals_union (events : list ScheduleEvent) (vs ve t : Z) :
  ((exists m, m ∈ unionIntervals events vs ve /\ inside t m)
   <-> (exists e, e ∈ events
          /\ Z.max vs (startMinute e) <= t < Z.min ve (endMinute e)))
  /\ StronglySorted apart (unionIntervals events vs ve).
Proof.
  split; [|apply unionIntervals_separated].
  destruct (unionIntervals_unionOf events vs ve) as (Hsound & Hcomplete & _).
  pose proof (clipped_sorted_elem events vs ve) as Hin.
  split.
  - intros (m & Hm & Ht). destruct (Hsound m t Hm Ht) as (iv & Hiv & Htiv).
    apply Hin in Hiv as (e & He & Hiv). exists e. split; [done|].
    apply inside_clipped. by eauto.
  - intros (e & He & Ht). apply inside_clipped in Ht as (iv & Hiv & Htiv).
    destruct (Hcomplete iv) as (m & Hm & Hmiv); [apply Hin; by eauto|].
    exists m. split; [done|]. unfold inside, contains in *. lia.
Qed.

(** *** The segments inside the window *)

Lemma mergeStep_inWindow vs ve merged iv :
  Forall (inWindow vs ve) merged -> inWindow vs ve iv ->
  Forall (inWindow vs ve) (mergeStep merged iv).
Proof.
  intros Hm Hiv. unfold mergeStep. destruct (last merged) as [lst|] eqn:Hl.
  - apply last_Some in Hl as [m ->].
    rewrite Forall_app, Forall_singleton in Hm. destruct Hm as [Hm Hlst].
    destruct (_ <? _).
    + rewrite !Forall_app, !Forall_singleton. done.
    + rewrite insert_last, Forall_app, Forall_singleton. split; [done|].
      unfold inWindow in *. simpl. lia.
  - apply Forall_app. split; [done|]. by apply Forall_singleton.
Qed.

Lemma unionIntervals_inWindow events vs ve :
  Forall (inWindow vs ve) (unionIntervals events vs ve).
Proof.
  unfold unionIntervals.
  assert (Forall (inWindow vs ve) (sort byIntervalStart (flat_map (clipped vs ve) events)))
    as Hall.
  { rewrite sort_perm. induction events as [|e events IH]; simpl; [constructor|].
    apply Forall_app. split; [|done]. unfold clipped.
    destruct (_ <? _); [|constructor]. apply Forall_singleton. unfold inWindow. simpl. lia. }
  revert Hall. generalize (sort byIntervalStart (flat_map (clipped vs ve) events)).
  assert (Forall (inWindow vs ve) []) as Hnil by constructor.
  revert Hnil. generalize (@nil Interval.t).
  intros merged Hm l. revert merged Hm.
  induction l as [|iv l IH]; intros merged Hm Hl; simpl; [done|].
  apply Forall_cons in Hl as [Hiv Hl]. apply IH; [|done]. by apply mergeStep_inWindow.
Qed.

Lemma idle_inWindow vs ve cur next :
  inWindow vs ve cur -> inWindow vs ve next ->
  positiveInterval cur -> positiveInterval next -> apart cur next ->
  segmentInWindow vs ve (idle cur next).
Proof.
  unfold inWindow, positiveInterval, apart, segmentInWindow, idle.
  intros. destruct (60 <=? _); simpl; lia.
Qed.

Lemma walk_inWindow vs ve intervals :
  separated intervals -> Forall (inWindow vs ve) intervals ->
  Forall (segmentInWindow vs ve) (walk intervals).
Proof.
  intros [Hs Hp]. induction Hs as [|cur rest Hs IH Hcur]; intros Hw; [constructor|].
  apply Forall_cons in Hp as [Hpc Hp]. apply Forall_cons in Hw as [Hwc Hw].
  change (walk (cur :: rest))
    with (busy cur :: match rest with
                      | [] => []
                      | next :: _ => between cur next ++ walk rest
                      end).
  constructor.
  - unfold segmentInWindow, inWindow, positiveInterval in *. simpl. lia.
  - destruct rest as [|next rest']; [constructor|].
    apply Forall_cons in Hcur as [Hap _].
    rewrite (between_apart _ _ Hap). constructor; [|by apply IH].
    apply Forall_cons in Hp as [Hpn _]. apply Forall_cons in Hw as [Hwn _].
    by apply idle_inWindow.
Qed.

Lemma segments_inWindow events vs ve :
  Forall (segmentInWindow vs ve) (segments vs ve (unionIntervals events vs ve)).
Proof.
  unfold segments. destruct (ve <=? vs) eqn:Hw; [constructor|].
  apply Z.leb_gt in Hw.
  pose proof (unionIntervals_separated events vs ve) as Hsep.
  pose proof (unionIntervals_inWindow events vs ve) as Hin.
  destruct (unionIntervals events vs ve) as [|iv u] eqn:Hu.
  - apply Forall_singleton. unfold segmentInWindow. simpl. lia.
  - by apply walk_inWindow.
Qed.

(** Consecutive segments of the walk touch. *)
Lemma walk_head cur rest : head (walk (cur :: rest)) = Some (busy cur).
Proof. reflexivity. Qed.

Lemma walk_touch intervals : forall i a b,
  StronglySorted apart intervals ->
  walk intervals !! i = Some a -> walk intervals !! S i = Some b ->
  Segment.end_ a = Segment.start b.
Proof.
  induction intervals as [|cur rest IH]; intros i a b Hs Ha Hb; [done|].
  apply StronglySorted_inv in Hs as [Hs Hcur].
  destruct rest as [|next rest']; [by destruct i|].
  apply Forall_cons in Hcur as [Hap _].
  change (walk (cur :: next :: rest'))
    with (busy cur :: between cur next ++ walk (next :: rest')) in Ha, Hb.
  rewrite (between_apart _ _ Hap) in Ha, Hb.
  destruct i as [|[|i]]; simpl in Ha, Hb.
  - simplify_eq. unfold idle. by destruct (60 <=? _).
  - simplify_eq. unfold idle. by destruct (60 <=? _).
  - by apply (IH i a b).
Qed.

Lemma walk_last intervals :
  StronglySorted apart intervals -> last (walk intervals) = busy <$> last intervals.
Proof.
  induction 1 as [|cur rest Hs IH Hcur]; [done|].
  destruct rest as [|next rest']; [done|].
  apply Forall_cons in Hcur as [Hap _].
  change (walk (cur :: next :: rest'))
    with (busy cur :: between cur next ++ walk (next :: rest')).
  rewrite (between_apart _ _ Hap).
  change (last (busy cur :: [idle cur next] ++ walk (next :: rest')))
    with (last (walk (next :: rest'))).
  by rewrite IH.
Qed.

(** X3.  When the window is not empty, the segments tile a stretch of it
    without hole or overlap: each segment has positive length and lies in the
    window, each ends where the next starts, the first starts with the first
    merged interval and the last ends with the last one (with the window
    itself when no interval was merged). *)
Theorem segments_tile (events : list ScheduleEvent) :
  let tl := timeline events in
  visibleStartMin tl < visibleEndMin tl ->
  Forall (segmentInWindow (visibleStartMin tl) (visibleEndMin tl)) (segs tl)
  /\ (forall i a b, segs tl !! i = Some a -> segs tl !! S i = Some b ->
        Segment.end_ a = Segment.start b)
  /\ Segment.start <$> head (segs tl)
     = Some (default (visibleStartMin tl) (Interval.start <$> head (merged tl)))
  /\ Segment.end_ <$> last (segs tl)
     = Some (default (visibleEndMin tl) (Interval.end_ <$> last (merged tl))).
Proof.
  unfold timeline. destruct (visibleWindow events) as [vs ve]. simpl. intros Hw.
  split; [apply segments_inWindow|].
  destruct (unionIntervals_separated events vs ve) as [Hs _].
  unfold segments. replace (ve <=? vs) with false by (symmetry; apply Z.leb_gt; lia).
  destruct (unionIntervals events vs ve) as [|cur rest] eqn:Hu.
  - split_and!; [|done|done]. intros [|i] a b Ha Hb; done.
  - split_and!.
    + intros i a b. by apply walk_touch.
    + done.
    + rewrite (walk_last _ Hs).
      destruct (last (cur :: rest)) eqn:E; [done|by apply last_None in E].
Qed.

Lemma segments_tile_witness :
  Segment.start <$> head (segs (timeline sampleWeek)) = Some 540
  /\ Segment.end_ <$> last (segs (timeline sampleWeek)) = Some 900.
Proof.
  assert (visibleStartMin (timeline sampleWeek) < visibleEndMin (timeline sampleWeek))
    as Hw by (by vm_compute).
  destruct (segments_tile sampleWeek Hw) as (_ & _ & Hh & Hl). split; [exact Hh|exact Hl].
Defined.

(** *** Offsets within the total height *)

Lemma total_ge segments : forall y,
  Forall sound segments ->
  (y <= foldl (fun acc s => acc + Segment.height s) y segments)%Q.
Proof.
  induction segments as [|seg rest IH]; intros y Hs; simpl; [apply Qle_refl|].
  apply Forall_cons in Hs as [[Hh _] Hs].
  specialize (IH (y + Segment.height seg)%Q Hs). lra.
Qed.

Lemma accumulate_le_total segments clamped : forall y,
  Forall sound segments ->
  (accumulate segments clamped y
   <= foldl (fun acc s => acc + Segment.height s) y segments)%Q.
Proof.
  induction segments as [|seg rest IH]; intros y Hs; simpl; [apply Qle_refl|].
  pose proof (total_ge (seg :: rest) y Hs) as Hge. simpl in Hge.
  apply Forall_cons in Hs as [[Hh Hv] Hs].
  pose proof (total_ge rest (y + Segment.height seg)%Q Hs) as Hrest.
  destruct (clamped <? Segment.start seg) eqn:Hb; [done|]. apply Z.ltb_ge in Hb.
  destruct (Segment.end_ seg <=? clamped) eqn:He; [by apply IH|]. apply Z.leb_gt in He.
  destruct (Segment.type seg); [|lra].
  pose proof (scaled_mono (clamped - Segment.start seg)
                (Segment.end_ seg - Segment.start seg) ltac:(lia)).
  specialize (Hv eq_refl). lra.
Qed.

Lemma accumulate_past segments clamped : forall y,
  Forall (fun seg => Segment.start seg <= clamped /\ Segment.end_ seg <= clamped) segments ->
  accumulate segments clamped y
  = foldl (fun acc s => (acc + Segment.height s)%Q) y segments.
Proof.
  induction segments as [|seg rest IH]; intros y Hs; simpl; [done|].
  apply Forall_cons in Hs as [[Hb He] Hs].
  replace (clamped <? Segment.start seg) with false by (symmetry; apply Z.ltb_ge; lia).
  replace (Segment.end_ seg <=? clamped) with true by (symmetry; apply Z.leb_le; lia).
  by apply IH.
Qed.

(** X4.  Every minute is mapped to an offset between 0 and the total height
    of the grid, and the end of the visible window is mapped to the total
    height itself. *)
Theorem mapMinToY_within_total (events : list ScheduleEvent) (absMin : Z) :
  let tl := timeline events in
  (0 <= mapMinToYOf events absMin)%Q
  /\ (mapMinToYOf events absMin <= totalHeight (segs tl))%Q
  /\ mapMinToYOf events (visibleEndMin tl) = totalHeight (segs tl).
Proof.
  unfold mapMinToYOf, mapMinToY, totalHeight, timeline.
  destruct (visibleWindow events) as [vs ve]. simpl.
  pose proof (segments_sound events vs ve) as Hsound.
  split_and!.
  - by apply accumulate_ge.
  - by apply accumulate_le_total.
  - apply accumulate_past.
    pose proof (segments_inWindow events vs ve) as Hin.
    eapply Forall_impl; [exact Hin|]. unfold segmentInWindow. intros seg ?. lia.
Qed.

(** *** An event and the segments *)

Lemma walk_busy intervals : forall i m,
  StronglySorted apart intervals -> intervals !! i = Some m ->
  walk intervals !! (2 * i)%nat = Some (busy m).
Proof.
  induction intervals as [|c0 rest IH]; intros i m Hs Hi; [done|].
  destruct i as [|i]; [simpl in Hi; by simplify_eq|].
  apply StronglySorted_inv in Hs as [Hs Hc0].
  destruct rest as [|n0 rest']; [done|].
  apply Forall_cons in Hc0 as [Hap _].
  change (walk (c0 :: n0 :: rest'))
    with (busy c0 :: between c0 n0 ++ walk (n0 :: rest')).
  rewrite (between_apart _ _ Hap).
  replace (2 * S i)%nat with (S (S (2 * i))) by lia.
  apply (IH i m Hs Hi).
Qed.

(** X5.  An event of the displayed list whose end minute lies after its
    start minute lies, from start to end, in one merged interval, and so in
    one segment of the timeline, the visible segment of that interval: no
    segment boundary and no collapsed gap falls between its two ends. *)
Theorem event_in_one_segment (events : list ScheduleEvent) (e : ScheduleEvent) :
  e ∈ events ->
  startMinute e < endMinute e ->
  exists i m,
    merged (timeline events) !! i = Some m
    /\ segs (timeline events) !! (2 * i)%nat
       = Some (Segment.mk Segment.visible (Interval.start m) (Interval.end_ m)
                 (scaled (Interval.end_ m - Interval.start m)))
    /\ Interval.start m <= startMinute e
    /\ endMinute e <= Interval.end_ m.
Proof.
  intros He Hpos. unfold timeline.
  assert (events <> []) as Hne by (intros ->; by apply elem_of_nil in He).
  pose proof (visibleWindow_spec events Hne) as (_ & _ & _ & _ & Hall & _).
  rewrite Forall_forall in Hall. specialize (Hall e He).
  destruct (visibleWindow events) as [vs ve]. simpl in *.
  destruct (unionIntervals_unionOf events vs ve) as (_ & Hcomplete & _).
  destruct (Hcomplete (Interval.mk (startMinute e) (endMinute e)))
    as (m & Hm & Hs & Hen).
  { apply clipped_sorted_elem. exists e. split; [done|]. unfold clipped.
    fold (startMinute e). fold (endMinute e).
    rewrite Z.max_r, Z.min_r by lia.
    replace (startMinute e <? endMinute e) with true by (symmetry; by apply Z.ltb_lt).
    left. }
  simpl in Hs, Hen.
  apply list_elem_of_lookup in Hm as [i Hi].
  exists i, m. split_and!; [done| |done|done].
  rewrite segments_walk by (intros E; by rewrite E in Hi).
  apply (walk_busy _ i m); [apply unionIntervals_separated|done].
Qed.

Lemma event_in_one_segment_witness :
  exists i m,
    merged (timeline sampleWeek) !! i = Some m
    /\ Interval.start m <= startMinute (sampleEvent 1 9 30 10 30)
    /\ endMinute (sampleEvent 1 9 30 10 30) <= Interval.end_ m.
Proof.
  assert (sampleEvent 1 9 30 10 30 ∈ sampleWeek) as He by (right; left).
  assert (startMinute (sampleEvent 1 9 30 10 30) < endMinute (sampleEvent 1 9 30 10 30))
    as Hpos by (by vm_compute).
  destruct (event_in_one_segment sampleWeek _ He Hpos) as (i & m & Hi & _ & Hs & Hen).
  exists i, m. split; [exact Hi|]. split; [exact Hs|exact Hen].
Defined.

(** *** The hour rows of a visible segment *)

Lemma hourBlocks_spec p stop :
  p <= stop ->
  sumZ (hourBlocks p stop) = stop - p
  /\ Forall (fun b => 0 < b <= 60) (hourBlocks p stop)
  /\ (forall k b, hourBlocks p stop !! k = Some b ->
        let from := p + sumZ (take k (hourBlocks p stop)) in
        ((0 < k)%nat -> from mod 60 = 0)
        /\ ((S k < length (hourBlocks p stop))%nat -> (from + b) mod 60 = 0)).
Proof.
  funelim (hourBlocks p stop); intros Hle; clear Heqcall.
  - rename end_0 into stop. pose proof (Z.div_mod p 60 ltac:(lia)) as Hdm.
    pose proof (Z.mod_pos_bound p 60 ltac:(lia)) as Hmod.
    set (nextBoundary := Z.min stop (p / 60 * 60 + 60)) in *.
    assert (p < nextBoundary <= stop /\ nextBoundary - p <= 60) as (Hn & Hn')
      by (unfold nextBoundary; lia).
    assert (nextBoundary < stop -> nextBoundary mod 60 = 0) as Hfull.
    { intros Hlt. replace nextBoundary with ((p / 60 + 1) * 60)
        by (unfold nextBoundary; lia).
      apply Z.mod_mul. lia. }
    destruct (H ltac:(lia)) as (Hsum & Hall & Hcut).
    set (rest := hourBlocks nextBoundary stop) in *.
    assert (rest <> [] -> nextBoundary < stop) as Hrest.
    { destruct rest as [|b0 rest']; [done|]. intros _.
      apply Forall_cons in Hall as [Hb0 Hall'].
      assert (0 <= sumZ rest') as Hpos'.
      { clear -Hall'. induction Hall' as [|x l Hx _ IH]; simpl; lia. }
      simpl in Hsum. lia. }
    rewrite Z.max_r by lia.
    split_and!.
    + simpl. lia.
    + constructor; [lia|done].
    + intros [|k] b Hk; simpl in Hk |- *.
      * injection Hk as <-. split; [lia|]. intros Hlen.
        replace (p + 0 + (nextBoundary - p)) with nextBoundary by lia.
        apply Hfull, Hrest. intros E. rewrite E in Hlen. simpl in Hlen. lia.
      * destruct (Hcut k b Hk) as [Hfrom Hto].
        replace (p + (nextBoundary - p + sumZ (take k rest)))
          with (nextBoundary + sumZ (take k rest)) by lia.
        split; [|intros Hlen; apply Hto; lia].
        intros _. destruct k as [|k]; [|apply Hfrom; lia].
        rewrite take_0. simpl. rewrite Z.add_0_r.
        apply Hfull, Hrest. intros E. by rewrite E in Hk.
  - rename end_0 into stop. assert (stop = p) as -> by lia.
    rewrite Z.sub_diag. split_and!; [done|constructor|done].
Qed.

(** X6.  The hour rows drawn inside a segment of positive length cut it at
    its full hours: there is at least one row, every row spans more than 0
    and at most 60 minutes, the minutes of the rows add up to the length of
    the segment, every row but the first begins at a full hour and every row
    but the last ends at one; and there are as many heights as rows. *)
Theorem hourRows_cut_at_full_hours (seg : Segment.t) :
  Segment.start seg < Segment.end_ seg ->
  let blocks := hourBlocks (Segment.start seg) (Segment.end_ seg) in
  blocks <> []
  /\ Forall (fun b => 0 < b <= 60) blocks
  /\ sumZ blocks = Segment.end_ seg - Segment.start seg
  /\ (forall k b, blocks !! k = Some b ->
        let from := Segment.start seg + sumZ (take k blocks) in
        ((0 < k)%nat -> from mod 60 = 0)
        /\ ((S k < length blocks)%nat -> (from + b) mod 60 = 0))
  /\ length (hourRows (Segment.start seg) (Segment.end_ seg)) = length blocks.
Proof.
  intros Hpos blocks.
  destruct (hourBlocks_spec (Segment.start seg) (Segment.end_ seg) ltac:(lia))
    as (Hsum & Hall & Hcut).
  split_and!; [|done|done|done|apply length_map].
  intros Hnil. unfold blocks in Hnil. rewrite Hnil in Hsum. simpl in Hsum. lia.
Qed.

Lemma hourRows_cut_at_full_hours_witness :
  hourBlocks 570 700 <> [] /\ sumZ (hourBlocks 570 700) = 130.
Proof.
  destruct (hourRows_cut_at_full_hours (Segment.mk Segment.visible 570 700 (scaled 130)))
    as (Hne & _ & Hsum & _); [simpl; lia|].
  by split.
Defined.

Example hourBlocks_sample :
  hourBlocks 570 700 = [30; 60; 40].
Proof. reflexivity. Qed.

End TimelineMore.

(** ** More on the handler and the collection *)

Module AppMore.
Import JS Types App Notions SortFacts DecoderFacts.

(** *** The week that is shown *)

(** The Monday of [d] as a number of days: the day of [d] less its distance
    to the Monday before. *)
Lemma mondayOf_ms d :
  localMs (mondayOf d)
  = (localMs d / msPerDay - (localMs d / msPerDay + 3) mod 7) * msPerDay.
Proof.
  unfold mondayOf, startOfDay, addDays, getDay, msPerDay. simpl.
  set (n := localMs d / 86400000).
  assert ((if (n + 4) mod 7 =? 0 then 6 else (n + 4) mod 7 - 1) = (n + 3) mod 7) as ->.
  { destruct ((n + 4) mod 7 =? 0) eqn:E;
      [apply Z.eqb_eq in E|apply Z.eqb_neq in E]; Z.div_mod_to_equations; lia. }
  f_equal. unfold n. Z.div_mod_to_equations. lia.
Qed.

(** X7.  The week start computed from a date is the Monday, at 0:00, of the
    week of that date: it is a Monday, at midnight, not after the date and
    less than seven days before it. *)
Theorem mondayOf_is_monday (d : Date) :
  getDay (mondayOf d) = 1
  /\ getHours (mondayOf d) = 0
  /\ getMinutes (mondayOf d) = 0
  /\ getTime (mondayOf d) <= getTime d < getTime (addDays (mondayOf d) 7).
Proof.
  unfold getDay, getHours, getMinutes, getTime.
  change (localMs (addDays (mondayOf d) 7)) with (localMs (mondayOf d) + 7 * msPerDay).
  rewrite !mondayOf_ms. unfold msPerDay, msPerHour, msPerMinute.
  set (n := localMs d / 86400000).
  assert (localMs d = 86400000 * n + localMs d mod 86400000) as Hd
    by (unfold n; apply Z.div_mod; lia).
  pose proof (Z.mod_pos_bound (localMs d) 86400000 ltac:(lia)) as Hm.
  set (m := n - (n + 3) mod 7).
  assert ((m + 3) mod 7 = 0 /\ m <= n < m + 7) as [Hm3 Hmn]
    by (unfold m; Z.div_mod_to_equations; lia).
  split_and!.
  - rewrite Z.div_mul by lia. Z.div_mod_to_equations. lia.
  - rewrite Z.mod_mul by lia. done.
  - replace (m * 86400000) with (m * 24 * 3600000) by lia.
    rewrite Z.mod_mul by lia. done.
  - lia.
  - lia.
Qed.

(** Two dates have the same Monday exactly when the second lies in the seven
    days that start with the Monday of the first. *)
Lemma same_week d0 d :
  mondayOf d = mondayOf d0
  <-> getTime (mondayOf d0) <= getTime d < getTime (addDays (mondayOf d0) 7).
Proof.
  unfold getTime.
  change (localMs (addDays (mondayOf d0) 7)) with (localMs (mondayOf d0) + 7 * msPerDay).
  assert (mondayOf d = mondayOf d0 <-> localMs (mondayOf d) = localMs (mondayOf d0)) as ->.
  { split; [by intros ->|]. destruct (mondayOf d), (mondayOf d0). simpl. by intros ->. }
  rewrite !mondayOf_ms. unfold msPerDay.
  set (n := localMs d / 86400000). set (n0 := localMs d0 / 86400000).
  assert (localMs d = 86400000 * n + localMs d mod 86400000) as Hd
    by (unfold n; apply Z.div_mod; lia).
  pose proof (Z.mod_pos_bound (localMs d) 86400000 ltac:(lia)) as Hm.
  set (m := n - (n + 3) mod 7). set (m0 := n0 - (n0 + 3) mod 7).
  assert ((m + 3) mod 7 = 0 /\ m <= n < m + 7) as [Hm3 Hmn]
    by (unfold m; Z.div_mod_to_equations; lia).
  assert ((m0 + 3) mod 7 = 0) as Hm03 by (unfold m0; Z.div_mod_to_equations; lia).
  clearbody m m0 n. clear n0. split.
  - intros Heq. assert (m = m0) as -> by lia. lia.
  - intros Hin. assert (m0 <= n < m0 + 7) as Hn by lia.
    assert (m = m0) as -> by (Z.div_mod_to_equations; lia). done.
Qed.

(** *** The outcomes of a submission *)

Lemma decodeRows_length toISOString rows : forall index (m m' : gmap string Color) events,
  decodeRows toISOString index rows m = inr (events, m') -> length events = length rows.
Proof.
  induction rows as [|columns rows IH]; intros index m m' events; simpl.
  - by intros [= <- <-].
  - destruct (decodeRow toISOString index columns m) as [?|[e m1]]; [done|]. simpl.
    destruct (decodeRows toISOString (S index) rows m1) as [?|[rest m2]] eqn:Hrest;
      [done|].
    simpl. intros [= <- <-]. simpl. f_equal. by eapply IH.
Qed.

Lemma decode_length toISOString rows events :
  decode toISOString rows = inr events -> length events = length rows.
Proof.
  unfold decode.
  destruct (decodeRows toISOString 0 rows ∅) as [?|[parsed m]] eqn:Hd; [done|].
  simpl. rewrite filter_hasStartAndEnd. intros [= <-]. by eapply decodeRows_length.
Qed.

(** X8.  A submission is all or nothing.  Either every data row was decoded:
    there is no error, the collection holds one event for each data row,
    sorted by start, and the week start is the Monday of the first of them.
    Or a message was set before anything was decoded, and the collection and
    the week start are what they were.  Or the decode threw: the collection
    is empty, the week start is cleared and the message of the exception is
    shown after the prefix [Failed to parse data: ]. *)
Theorem handleGenerate_all_or_nothing (toISOString : Date -> string)
  (inp : Inputs) (st : AppState) :
  let st' := handleGenerate toISOString inp st in
  (exists rawData parsed,
      readInput inp = Some (inr rawData)
      /\ decode toISOString (drop 1 (parseRows rawData)) = inr parsed
      /\ (1 <= length parsed)%nat
      /\ S (length parsed) = length (parseRows rawData)
      /\ error st' = None
      /\ events st' ≡ₚ parsed
      /\ StronglySorted (key_le startOf) (events st')
      /\ currentWeekStart st' = (fun e => mondayOf (start e)) <$> head (events st'))
  \/ (events st' = events st
      /\ currentWeekStart st' = currentWeekStart st
      /\ is_Some (error st'))
  \/ (events st' = []
      /\ currentWeekStart st' = None
      /\ exists e, error st' = Some ("Failed to parse data: " +:+ message e)).
Proof.
  unfold handleGenerate, generate.
  destruct (readInput inp) as [[e|rawData]|] eqn:Hin; simpl.
  - right; right. by eauto.
  - destruct (length (parseRows rawData) <? 2)%nat eqn:Hlen; simpl.
    + right; left. by eauto.
    + apply Nat.ltb_ge in Hlen.
      destruct (decode toISOString (drop 1 (parseRows rawData))) as [e|parsed] eqn:Hd;
        simpl.
      * right; right. by eauto.
      * left. exists rawData, parsed.
        pose proof (decode_length _ _ _ Hd) as Hl. rewrite length_drop in Hl.
        pose proof (sort_perm byStart parsed) as Hperm.
        split_and!; [done|done|lia|lia|done|done|apply (sort_key startOf)|].
        destruct (sort byStart parsed) as [|first rest] eqn:Hs; [|done].
        apply Permutation_length in Hperm. simpl in Hperm. lia.
  - right; left. by eauto.
Qed.

(** X9.  After a submission that decoded its rows, the events handed to the
    schedule are exactly the events of the collection that start in the same
    Monday-to-Sunday week as the earliest one, which is the first of the
    collection and is always among them. *)
Theorem displayed_week (toISOString : Date -> string) (inp : Inputs) (st : AppState)
  (parsed : list ScheduleEvent) (first : ScheduleEvent) :
  generate toISOString inp = inr (inr parsed) ->
  let st' := handleGenerate toISOString inp st in
  head (events st') = Some first ->
  (forall e, e ∈ events st' -> getTime (start first) <= getTime (start e))
  /\ first ∈ currentWeekEvents st'
  /\ (forall e, e ∈ currentWeekEvents st'
        <-> e ∈ events st' /\ mondayOf (start e) = mondayOf (start first)).
Proof.
  intros Hg. unfold handleGenerate. rewrite Hg. simpl.
  pose proof (sort_key startOf parsed) as Hsorted.
  change (fun a b => startOf a - startOf b) with byStart in Hsorted.
  destruct (sort byStart parsed) as [|f rest] eqn:Hs; [done|]. simpl.
  intros [= ->].
  assert (forall e, e ∈ currentWeekEvents
            {| events := first :: rest; error := None;
               currentWeekStart := Some (mondayOf (start first)) |}
          <-> e ∈ first :: rest /\ mondayOf (start e) = mondayOf (start first)) as Hweek.
  { intros e. unfold currentWeekEvents. cbn [currentWeekStart events].
    rewrite list_elem_of_In, filter_In, <- list_elem_of_In.
    rewrite andb_true_iff, Z.leb_le, Z.ltb_lt. by rewrite same_week. }
  split_and!; [|by apply Hweek; split; [left|]|done].
  intros e He. apply StronglySorted_inv in Hsorted as [_ Hfirst].
  apply elem_of_cons in He as [->|He]; [lia|].
  rewrite Forall_forall in Hfirst. by apply Hfirst.
Qed.

Lemma displayed_week_witness :
  exists first,
    head (events (handleGenerate (fun _ => EmptyString) reversedInput initialState))
      = Some first
    /\ first ∈ currentWeekEvents
                 (handleGenerate (fun _ => EmptyString) reversedInput initialState).
Proof.
  destruct (generate (fun _ => EmptyString) reversedInput) as [?|[?|parsed]] eqn:Hg;
    [by vm_compute in Hg|by vm_compute in Hg|].
  destruct (head (events (handleGenerate (fun _ => EmptyString) reversedInput initialState)))
    as [first|] eqn:Hh; [|by vm_compute in Hh].
  exists first. split; [done|].
  exact (proj1 (proj2 (displayed_week _ reversedInput initialState parsed first Hg Hh))).
Defined.

(** *** The CSV dialect without quotes *)

Lemma append_empty (s : string) : s +:+ EmptyString = s.
Proof.
  induction s as [|c s IH]; [done|].
  change (String c (s +:+ EmptyString) = String c s). by f_equal.
Qed.

Lemma append_assoc (a b c : string) : (a +:+ b) +:+ c = a +:+ (b +:+ c).
Proof.
  induction a as [|x a IH]; [done|].
  change (String x ((a +:+ b) +:+ c) = String x (a +:+ (b +:+ c))). by f_equal.
Qed.

Lemma split_nonempty sep s : split sep s <> [].
Proof.
  induction s as [|c s IH]; simpl; [done|].
  destruct (Ascii.eqb c sep); [done|]. by destruct (split sep s).
Qed.

Lemma prepend_empty pieces : pieces <> [] -> prepend EmptyString pieces = pieces.
Proof. by destruct pieces. Qed.

Lemma csvLine_unquoted line : forall row field,
  countChar quote line = 0%nat ->
  exists row' field',
    csvLine line row field false = (row', field', false)
    /\ row' ++ [trim field'] = row ++ map trim (prepend field (split ","%char line)).
Proof.
  induction line as [|c rest IH]; intros row field Hq.
  - exists row, field. split; [done|].
    change (split ","%char EmptyString) with [EmptyString]. cbn [prepend map].
    by rewrite append_empty.
  - simpl in Hq. destruct (Ascii.eqb c quote) eqn:Ec; [done|]. simpl in Hq.
    cbn [csvLine]. rewrite Ec.
    destruct (Ascii.eqb c ","%char) eqn:Ecomma; simpl.
    + destruct (IH (row ++ [trim field]) EmptyString Hq) as (row' & field' & -> & Hrow).
      exists row', field'. split; [done|]. rewrite Hrow, Ecomma. simpl.
      rewrite prepend_empty by apply split_nonempty.
      by rewrite append_empty, <- (assoc_L (++)).
    + destruct (IH row (field +:+ String c EmptyString) Hq) as (row' & field' & -> & Hrow).
      exists row', field'. split; [done|]. rewrite Hrow, Ecomma. f_equal. f_equal.
      pose proof (split_nonempty ","%char rest) as Hne.
      destruct (split ","%char rest) as [|h t]; [done|]. simpl.
      by rewrite append_assoc.
Qed.

Lemma csvLines_unquoted lines : forall result,
  Forall (fun line => countChar quote line = 0%nat) lines ->
  csvLines lines result [] EmptyString false
  = result ++ List.filter (existsb nonEmpty)
                (map (fun line => map trim (split ","%char line)) lines).
Proof.
  induction lines as [|line more IH]; intros result Hq.
  - simpl. by rewrite (right_id_L [] (++)).
  - apply Forall_cons in Hq as [Hline Hq].
    destruct (csvLine_unquoted line [] EmptyString Hline) as (row' & field' & Hl & Hrow).
    simpl in Hrow. rewrite prepend_empty in Hrow by apply split_nonempty.
    cbn [csvLines]. rewrite Hl. cbn [negb]. rewrite Hrow, IH by done.
    cbn [map List.filter].
    destruct (existsb nonEmpty (map trim (split ","%char line))); [|done].
    by rewrite <- (assoc_L (++)).
Qed.

Lemma split_countChar q sep s :
  countChar q s = 0%nat -> Forall (fun piece => countChar q piece = 0%nat) (split sep s).
Proof.
  induction s as [|c s IH]; simpl; intros Hq; [by repeat constructor|].
  destruct (Ascii.eqb c q) eqn:Ec; [done|]. simpl in Hq. specialize (IH Hq).
  destruct (Ascii.eqb c sep); [constructor; [done|done]|].
  destruct (split sep s) as [|h t]; simpl.
  - repeat constructor. simpl. by rewrite Ec.
  - apply Forall_cons in IH as [Hh Ht]. constructor; [|done]. simpl. by rewrite Ec, Hh.
Qed.

(** X10.  On a text without double quote the CSV parser is the naive one:
    every line is split at its commas, every field is trimmed, and the rows
    without a non-empty field are dropped. *)
Theorem parseCSV_unquoted (text : string) :
  countChar quote text = 0%nat -> parseCSV text = commaRows text.
Proof.
  intros Hq. unfold parseCSV, commaRows.
  by rewrite csvLines_unquoted by by apply split_countChar.
Qed.

Lemma parseCSV_unquoted_witness :
  parseCSV ("Start, End ,Title" +:+ String newline ",," +:+ String newline "a,b,c")
  = [["Start"; "End"; "Title"]; ["a"; "b"; "c"]].
Proof.
  rewrite parseCSV_unquoted by reflexivity. reflexivity.
Defined.

(** *** The palette *)

Lemma palette_injective (a b : nat) :
  (a < 8)%nat -> (b < 8)%nat ->
  classes (paletteEntry a) = classes (paletteEntry b) -> a = b.
Proof.
  intros Ha Hb.
  do 8 (destruct a as [|a]; [do 8 (destruct b as [|b]; [done|]); lia|]). lia.
Qed.

(** X11.  In a decoded batch two events have the same colour exactly when
    the numbers of distinct titles seen before the first appearance of their
    titles are equal modulo 8: titles share a colour only when the palette
    has gone round. *)
Theorem same_color_iff_same_slot (toISOString : Date -> string)
  (rows : list (list string)) (events : list ScheduleEvent)
  (i1 i2 j1 j2 : nat) (e1 e2 : ScheduleEvent) :
  decode toISOString rows = inr events ->
  events !! i1 = Some e1 -> events !! i2 = Some e2 ->
  titles rows !! j1 = Some (title e1) -> title e1 ∉ take j1 (titles rows) ->
  titles rows !! j2 = Some (title e2) -> title e2 ∉ take j2 (titles rows) ->
  color e1 = color e2
  <-> (distinct (take j1 (titles rows)) mod 8 = distinct (take j2 (titles rows)) mod 8)%nat.
Proof.
  intros Hd H1 H2 Hj1 Hn1 Hj2 Hn2.
  rewrite (decode_color_first _ _ _ i1 j1 e1 Hd H1 Hj1 Hn1).
  rewrite (decode_color_first _ _ _ i2 j2 e2 Hd H2 Hj2 Hn2).
  split; [|by intros ->].
  apply palette_injective; apply Nat.mod_upper_bound; lia.
Qed.

Lemma same_color_iff_same_slot_witness :
  exists e1 e2,
    decodedSample !! 0%nat = Some e1 /\ decodedSample !! 1%nat = Some e2
    /\ color e1 <> color e2.
Proof.
  destruct (decodedSample !! 0%nat) as [e1|] eqn:H1; [|by vm_compute in H1].
  destruct (decodedSample !! 1%nat) as [e2|] eqn:H2; [|by vm_compute in H2].
  exists e1, e2. split_and!; [done..|].
  assert (decode (fun _ => EmptyString) [yogaRow; pilatesRow; yogaRow] = inr decodedSample)
    as Hd by reflexivity.
  assert (titles [yogaRow; pilatesRow; yogaRow] !! 0%nat = Some (title e1)) as Hj1
    by (vm_compute in H1; injection H1 as <-; reflexivity).
  assert (titles [yogaRow; pilatesRow; yogaRow] !! 1%nat = Some (title e2)) as Hj2
    by (vm_compute in H2; injection H2 as <-; reflexivity).
  assert (title e1 ∉ take 0 (titles [yogaRow; pilatesRow; yogaRow])) as Hn1
    by apply not_elem_of_nil.
  assert (title e2 ∉ take 1 (titles [yogaRow; pilatesRow; yogaRow])) as Hn2.
  { vm_compute in H2. injection H2 as <-. simpl.
    intros Hin%list_elem_of_singleton. discriminate. }
  rewrite (same_color_iff_same_slot _ _ _ 0 1 0 1 e1 e2 Hd H1 H2 Hj1 Hn1 Hj2 Hn2).
  by vm_compute.
Defined.

(** *** createNewEvent, updateEvent, deleteEvent *)

Lemma seedColors_consistent events : forall m seen,
  consistent seen m ->
  exists m', seedColors events m = inr m'
    /\ consistent (seen ++ map title events) m'.
Proof.
  induction events as [|e events IH]; intros m seen Hc; simpl.
  - exists m. by rewrite (right_id_L [] (++)).
  - rewrite getColor_spec.
    assert (match m !! title e with
            | Some c => (c, m)
            | None => let c := paletteEntry (size m mod 8) in (c, <[title e := c]> m)
            end.2 = remember (title e) m) as Hr.
    { unfold remember. by destruct (m !! title e). }
    destruct (match m !! title e with Some c => _ | None => _ end) as [c m1].
    simpl in Hr. subst m1. simpl.
    destruct (IH _ _ (consistent_snoc seen m (title e) Hc)) as (m' & -> & Hc').
    exists m'. split; [done|]. by rewrite (cons_middle (title e)), (assoc_L (++)).
Qed.

Lemma createNewEvent_spec (newEvent : ScheduleEvent) (st : AppState) :
  exists c,
    createNewEvent newEvent st
    = inr {| events := events st ++ [withColor newEvent (classes c)];
             error := error st;
             currentWeekStart := currentWeekStart st |}.
Proof.
  unfold createNewEvent.
  destruct (seedColors_consistent (events st) ∅ [] consistent_empty) as (m & -> & _).
  simpl. rewrite getColor_spec. destruct (m !! title newEvent); eexists; reflexivity.
Qed.

(** X12.  Adding an event never fails and appends it, recoloured, after the
    events of the collection, which stay as they are.  Its colour is the
    palette entry numbered, modulo 8, by the distinct titles that come before
    the first event of the collection with its title, or by all the distinct
    titles of the collection when its title is new. *)
Theorem createNewEvent_appends (newEvent : ScheduleEvent) (st : AppState) :
  exists c,
    createNewEvent newEvent st
    = inr {| events := events st ++ [withColor newEvent (classes c)];
             error := error st;
             currentWeekStart := currentWeekStart st |}
    /\ (forall j, map title (events st) !! j = Some (title newEvent) ->
          title newEvent ∉ take j (map title (events st)) ->
          c = paletteEntry (distinct (take j (map title (events st))) mod 8))
    /\ (title newEvent ∉ map title (events st) ->
          c = paletteEntry (distinct (map title (events st)) mod 8)).
Proof.
  unfold createNewEvent.
  destruct (seedColors_consistent (events st) ∅ [] consistent_empty) as (m & -> & Hc).
  change ([] ++ map title (events st)) with (map title (events st)) in Hc.
  simpl. rewrite getColor_spec.
  destruct Hc as (Hdom & Hsize & Hold).
  set (ts := map title (events st)) in *.
  destruct (m !! title newEvent) as [c|] eqn:Hl.
  - exists c. split; [reflexivity|]. split.
    + intros j Hj Hn. specialize (Hold j _ Hj Hn). rewrite Hold in Hl.
      injection Hl as <-. reflexivity.
    + intros Hn. apply Hdom in Hn. congruence.
  - exists (paletteEntry (size m mod 8)). split; [reflexivity|]. split.
    + intros j Hj Hn. apply Hdom in Hl. exfalso. apply Hl.
      by eapply list_elem_of_lookup_2.
    + intros _. rewrite <- Hsize. reflexivity.
Qed.

(** X13.  Updating an event keeps the identifiers of the collection, each at
    its place, puts the new value wherever its identifier is and leaves the
    other events alone; updating twice is updating once; and deleting the
    identifier after the update is deleting it before. *)
Theorem updateEvent_keeps_ids (updatedEvent : ScheduleEvent) (st : AppState) :
  map id (events (updateEvent updatedEvent st)) = map id (events st)
  /\ Forall2 (fun old new =>
       if decide (id old = id updatedEvent) then new = updatedEvent else new = old)
       (events st) (events (updateEvent updatedEvent st))
  /\ updateEvent updatedEvent (updateEvent updatedEvent st) = updateEvent updatedEvent st
  /\ deleteEvent (id updatedEvent) (updateEvent updatedEvent st)
     = deleteEvent (id updatedEvent) st.
Proof.
  unfold updateEvent, deleteEvent. simpl.
  set (u := updatedEvent).
  assert (forall e, String.eqb (id e) (id u) = true <-> id e = id u) as Heq
    by (intros e; apply String.eqb_eq).
  split_and!.
  - induction (events st) as [|e l IH]; simpl; [done|]. rewrite IH. f_equal.
    destruct (String.eqb (id e) (id u)) eqn:E; [|done]. symmetry. by apply Heq.
  - induction (events st) as [|e l IH]; simpl; constructor; [|done].
    destruct (String.eqb (id e) (id u)) eqn:E.
    + apply Heq in E. by rewrite decide_True.
    + rewrite decide_False; [done|]. intros He. apply Heq in He. congruence.
  - f_equal. induction (events st) as [|e l IH]; simpl; [done|]. rewrite IH. f_equal.
    destruct (String.eqb (id e) (id u)) eqn:E; [|by rewrite E].
    by rewrite String.eqb_refl.
  - f_equal. induction (events st) as [|e l IH]; simpl; [done|]. rewrite IH.
    destruct (String.eqb (id e) (id u)) eqn:E; simpl; [|by rewrite E].
    by rewrite String.eqb_refl.
Qed.

(** X14.  Deleting an identifier leaves no event with it and keeps every
    other event; so adding an event whose identifier is not in the collection
    and then deleting that identifier gives the collection back. *)
Theorem deleteEvent_undoes_create (newEvent : ScheduleEvent) (st st' : AppState) :
  Forall (fun e => id e <> id newEvent) (events st) ->
  createNewEvent newEvent st = inr st' ->
  events (deleteEvent (id newEvent) st') = events st
  /\ (forall eventId e, e ∈ events (deleteEvent eventId st')
        <-> e ∈ events st' /\ id e <> eventId).
Proof.
  intros Hfresh Hcreate. split.
  - destruct (createNewEvent_spec newEvent st) as (c & Hc).
    rewrite Hc in Hcreate. injection Hcreate as <-.
    unfold deleteEvent. simpl. rewrite List.filter_app. simpl.
    rewrite String.eqb_refl. simpl. rewrite (right_id_L [] (++)).
    clear Hc. induction Hfresh as [|e l He _ IH]; simpl; [done|]. rewrite IH.
    by replace (String.eqb (id e) (id newEvent)) with false
      by (symmetry; by apply String.eqb_neq).
  - intros eventId e. unfold deleteEvent. simpl.
    rewrite list_elem_of_In, filter_In, <- list_elem_of_In, negb_true_iff.
    by rewrite String.eqb_neq.
Qed.

Lemma deleteEvent_undoes_create_witness :
  exists st',
    createNewEvent (sampleEvent 3 9 0 10 0) sampleState = inr st'
    /\ events (deleteEvent (id (sampleEvent 3 9 0 10 0)) st') = events sampleState.
Proof.
  destruct (createNewEvent (sampleEvent 3 9 0 10 0) sampleState) as [?|st'] eqn:Hc;
    [by vm_compute in Hc|].
  exists st'. split; [done|].
  refine (proj1 (deleteEvent_undoes_create (sampleEvent 3 9 0 10 0) sampleState st' _ Hc)).
  set (l := events sampleState). vm_compute in l. subst l.
  repeat constructor; intros H; vm_compute in H; discriminate.
Defined.

End AppMore.

(** ** The day lists *)

Module LayoutMore.
Import JS Types Schedule Notions SortFacts PackingFacts DayFacts.

Lemma foldl_groupStep_length events l : forall grouped,
  length (foldl (groupStep events) grouped l) = length grouped.
Proof.
  induction l as [|e l IH]; intros grouped; simpl; [done|].
  rewrite IH. unfold groupStep. destruct (_ && _); [apply length_alter|done].
Qed.

Lemma groupByDay_length events : length (groupByDay events) = 7%nat.
Proof. unfold groupByDay. by rewrite foldl_groupStep_length, length_replicate. Qed.

Lemma concat_alter_snoc (e : ScheduleEvent) : forall grouped i,
  (i < length grouped)%nat ->
  length (concat (alter (fun l => l ++ [e]) i grouped)) = S (length (concat grouped)).
Proof.
  induction grouped as [|g grouped IH]; intros [|i] Hi; simpl in *; try lia.
  - rewrite !length_app. simpl. lia.
  - change (list_alter ?f i grouped) with (alter f i grouped).
    rewrite !length_app, IH by lia. lia.
Qed.

Lemma foldl_groupStep_count events l : forall grouped,
  length grouped = 7%nat ->
  length (concat (foldl (groupStep events) grouped l))
  = (length (concat grouped) + length l)%nat.
Proof.
  induction l as [|e l IH]; intros grouped Hg; simpl; [lia|].
  rewrite IH.
  2:{ unfold groupStep. destruct (_ && _); [by rewrite length_alter|done]. }
  unfold groupStep. rewrite dayIndex_dayOf. pose proof (dayOf_range e) as Hr.
  replace ((0 <=? dayOf e) && (dayOf e <? 7)) with true.
  2:{ symmetry. apply andb_true_intro. split; [apply Z.leb_le|apply Z.ltb_lt]; lia. }
  cbv iota. rewrite concat_alter_snoc by lia. lia.
Qed.

Lemma concat_length_Forall2 (l1 l2 : list (list ScheduleEvent)) :
  Forall2 (fun x y => length y = length x) l1 l2 ->
  length (concat l2) = length (concat l1).
Proof. induction 1; simpl; [done|]. rewrite !length_app. lia. Qed.

Lemma placeAll_length sorted : forall columns idxs columns',
  placeAll columns sorted = Some (idxs, columns') -> length idxs = length sorted.
Proof.
  induction sorted as [|e sorted IH]; intros columns idxs columns'; simpl.
  - by intros [= <- <-].
  - destruct (placeEvent columns e) as [[i columns1]|]; simpl; [|done].
    destruct (placeAll columns1 sorted) as [[idxs' columns2]|] eqn:Ha; simpl; [|done].
    intros [= <- <-]. simpl. f_equal. by eapply IH.
Qed.

Lemma zip_setLayout n sorted : forall idxs,
  length idxs = length sorted ->
  Forall2 (fun e a => exists ci tc, a = setLayout e ci tc) sorted
    (zip_with (fun event i => setLayout event i n) sorted idxs).
Proof.
  induction sorted as [|e sorted IH]; intros [|i idxs] Hl; simpl in *;
    try done.
  constructor; [by eauto|]. apply IH. lia.
Qed.

(** X15.  Grouping and laying out never fails and gives seven day lists.
    The list of a day holds the events of the collection that start on that
    day, each once, sorted by start, with nothing changed on them but the two
    layout fields; so the seven lists together hold as many events as the
    collection. *)
Theorem eventsByDay_partition (events : list ScheduleEvent) :
  exists byDay,
    eventsByDay events = Some byDay
    /\ length byDay = 7%nat
    /\ (forall (d : nat) laid, byDay !! d = Some laid ->
          exists sorted,
            sorted ≡ₚ List.filter (fun e => dayOf e =? Z.of_nat d) events
            /\ StronglySorted (fun a b => getTime (start a) <= getTime (start b)) sorted
            /\ Forall2 (fun e a => exists ci tc, a = setLayout e ci tc) sorted laid)
    /\ length (concat byDay) = length events.
Proof.
  destruct (eventsByDay_total events) as (byDay & Hby & Hall).
  exists byDay. split; [done|].
  assert (length byDay = 7%nat) as Hlen.
  { rewrite <- (Forall2_length _ _ _ Hall). apply groupByDay_length. }
  split_and!; [done| |].
  - intros d laid Hd.
    assert (d < 7)%nat as Hlt by (rewrite <- Hlen; by eapply lookup_lt_Some).
    destruct (eventsByDay_lookup _ _ _ Hby Hlt) as (laid' & Hl & Hlaid).
    rewrite Hd in Hl. injection Hl as <-.
    unfold layoutDay in Hlaid.
    destruct (placeAll [] (sort byStart (onDay d events))) as [[idxs columns]|] eqn:Hp;
      [|done].
    simpl in Hlaid. injection Hlaid as <-.
    exists (sort byStart (onDay d events)). split_and!.
    + apply sort_perm.
    + apply (sort_key startOf).
    + apply zip_setLayout. by eapply placeAll_length.
  - rewrite (concat_length_Forall2 _ _ Hall). unfold groupByDay.
    by rewrite foldl_groupStep_count by (by rewrite length_replicate).
Qed.

End LayoutMore.

(** ** Week pages and the modal *)

Module StateMore.
Import JS Types App Schedule Notions DecoderFacts AppMore.

Lemma addDays_0 (d : Date) : addDays d 0 = d.
Proof. destruct d as [ms]. unfold addDays. simpl. f_equal. lia. Qed.

Lemma addDays_addDays (d : Date) (a b : Z) : addDays (addDays d a) b = addDays d (a + b).
Proof. unfold addDays. simpl. f_equal. lia. Qed.

Lemma iter_handleWeekChange direction (k : nat) (st : AppState) (w : Date) :
  currentWeekStart st = Some w ->
  Nat.iter k (handleWeekChange direction) st
  = {| events := events st; error := error st;
       currentWeekStart :=
         Some (addDays w (Z.of_nat k
                          * match direction with dir_next => 7 | dir_prev => -7 end)) |}.
Proof.
  intros Hw. induction k as [|k IH].
  - simpl. rewrite addDays_0. destruct st. simpl in Hw. by rewrite Hw.
  - rewrite Nat.iter_succ, IH. unfold handleWeekChange. simpl.
    rewrite addDays_addDays. do 3 f_equal. lia.
Qed.

Lemma steps_spec (n : Z) (st : AppState) (w : Date) :
  currentWeekStart st = Some w ->
  steps n st = {| events := events st; error := error st;
                  currentWeekStart := Some (addDays w (n * 7)) |}.
Proof.
  intros Hw. unfold steps. destruct (0 <=? n) eqn:E.
  - apply Z.leb_le in E. rewrite (iter_handleWeekChange _ _ _ _ Hw).
    do 3 f_equal. lia.
  - apply Z.leb_gt in E. rewrite (iter_handleWeekChange _ _ _ _ Hw).
    do 3 f_equal. lia.
Qed.

(** X17.  The two week buttons undo each other.  When a week is displayed,
    every event of the collection is on exactly one week page: the page
    reached by [n] presses forward (backward for a negative [n]) shows the
    event exactly when [n] is the number of whole weeks from the displayed
    week start to the start of the event. *)
Theorem week_pages (st : AppState) (w : Date) (e : ScheduleEvent) :
  currentWeekStart st = Some w -> e ∈ events st ->
  handleWeekChange dir_prev (handleWeekChange dir_next st) = st
  /\ handleWeekChange dir_next (handleWeekChange dir_prev st) = st
  /\ forall n : Z,
       e ∈ currentWeekEvents (steps n st)
       <-> n = (getTime (start e) - getTime w) / (7 * msPerDay).
Proof.
  intros Hw He. split_and!.
  - unfold handleWeekChange. rewrite Hw. simpl. rewrite addDays_addDays, addDays_0.
    destruct st. simpl in Hw. by rewrite Hw.
  - unfold handleWeekChange. rewrite Hw. simpl. rewrite addDays_addDays, addDays_0.
    destruct st. simpl in Hw. by rewrite Hw.
  - intros n. rewrite (steps_spec n st w Hw). unfold currentWeekEvents.
    cbn [currentWeekStart events].
    rewrite list_elem_of_In, filter_In, <- list_elem_of_In.
    rewrite andb_true_iff, Z.leb_le, Z.ltb_lt.
    unfold getTime, addDays, msPerDay. cbn [localMs].
    split.
    + intros (_ & H1 & H2). apply (Z.div_unique_pos _ _ _
        (localMs (start e) - localMs w - n * (7 * 86400000))); lia.
    + intros ->. split; [done|].
      pose proof (Z.div_mod (localMs (start e) - localMs w) (7 * 86400000) ltac:(lia)).
      pose proof (Z.mod_pos_bound (localMs (start e) - localMs w) (7 * 86400000)
                    ltac:(lia)).
      lia.
Qed.

Lemma week_pages_witness :
  sampleEvent 1 9 0 10 0 ∈ currentWeekEvents (steps 0 sampleWeekState)
  /\ sampleEvent 1 9 0 10 0 ∉ currentWeekEvents (steps 1 sampleWeekState).
Proof.
  assert (sampleEvent 1 9 0 10 0 ∈ events sampleWeekState) as Hin by apply list_elem_of_here.
  destruct (week_pages sampleWeekState (newDate 2025 8 1 0 0) (sampleEvent 1 9 0 10 0)
              eq_refl Hin) as (_ & _ & Hpage).
  split.
  - by apply Hpage.
  - intros H. by apply Hpage in H.
Defined.

(** *** Saving from the modal *)

Lemma update_absent (u : ScheduleEvent) (l : list ScheduleEvent) :
  id u ∉ map id l ->
  map (fun e => if String.eqb (id e) (id u) then u else e) l = l.
Proof.
  induction l as [|e l IH]; simpl; [done|].
  rewrite not_elem_of_cons. intros [Hne Hl]. rewrite IH by done.
  by replace (String.eqb (id e) (id u)) with false
    by (symmetry; apply String.eqb_neq; congruence).
Qed.

Lemma update_ids (u : ScheduleEvent) (l : list ScheduleEvent) :
  map id (map (fun e => if String.eqb (id e) (id u) then u else e) l) = map id l.
Proof.
  induction l as [|e l IH]; simpl; [done|]. rewrite IH. f_equal.
  destruct (String.eqb (id e) (id u)) eqn:E; [|done]. symmetry. by apply String.eqb_eq.
Qed.

(** X18.  Saving from the modal never fails and touches only the events.
    An event with an identifier that is not empty and does not begin with
    [new-] replaces the events with its identifier: the identifiers of the
    collection stay as they are, and nothing changes when no event has it.
    Any other event, one made in this session included, is appended under
    the fresh identifier [new-] followed by the clock value, and the events
    already there stay. *)
Theorem modalSave_outcome (now : nat) (eventToSave : ScheduleEvent) (st : AppState) :
  exists st',
    modalSave now eventToSave st = inr st'
    /\ error st' = error st
    /\ currentWeekStart st' = currentWeekStart st
    /\ (id eventToSave <> EmptyString /\ isPrefix "new-" (id eventToSave) = false ->
          map id (events st') = map id (events st)
          /\ (id eventToSave ∉ map id (events st) -> events st' = events st))
    /\ (id eventToSave = EmptyString \/ isPrefix "new-" (id eventToSave) = true ->
          exists c,
            events st'
            = events st
              ++ [withColor (withId eventToSave ("new-" +:+ showNat now)) (classes c)]).
Proof.
  unfold modalSave, handleModalSave.
  destruct (String.eqb (id eventToSave) EmptyString) eqn:Eid;
    [apply String.eqb_eq in Eid|apply String.eqb_neq in Eid].
  - cbn [negb andb].
    destruct (createNewEvent_spec (withId eventToSave ("new-" +:+ showNat now)) st)
      as (c & ->).
    eexists. split; [done|]. cbn [error currentWeekStart events].
    split_and!; [done|done|by intros [? _]|by eauto].
  - destruct (isPrefix "new-" (id eventToSave)) eqn:Epre; cbn [negb andb].
    + destruct (createNewEvent_spec (withId eventToSave ("new-" +:+ showNat now)) st)
        as (c & ->).
      eexists. split; [done|]. cbn [error currentWeekStart events].
      split_and!; [done|done|by intros [_ ?]|by eauto].
    + eexists. split; [done|]. unfold updateEvent. cbn [error currentWeekStart events].
      split_and!; [done|done| |].
      * intros _. split; [apply update_ids|apply update_absent].
      * intros [?|?]; congruence.
Qed.

End StateMore.

(** ** The CSV dialect with quotes *)

Module CsvMore.
Import JS App Notions.

Lemma append_nil_l (s : string) : EmptyString +:+ s = s.
Proof. reflexivity. Qed.

Lemma append_cons (c : ascii) (s t : string) : String c s +:+ t = String c (s +:+ t).
Proof. reflexivity. Qed.

Lemma append_nil_r (s : string) : s +:+ EmptyString = s.
Proof. induction s as [|c s IH]; [done|]. rewrite append_cons. by f_equal. Qed.

Lemma append_assoc' (a b c : string) : (a +:+ b) +:+ c = a +:+ (b +:+ c).
Proof. induction a as [|x a IH]; [done|]. rewrite !append_cons. by f_equal. Qed.

Lemma split_cons sep c s :
  split sep (String c s)
  = if Ascii.eqb c sep then EmptyString :: split sep s else consHead c (split sep s).
Proof. reflexivity. Qed.

Lemma split_some sep s : exists h t, split sep s = h :: t.
Proof.
  induction s as [|c s (h & t & IH)]; [by exists EmptyString, []|].
  rewrite split_cons, IH. destruct (Ascii.eqb c sep); simpl; by eauto.
Qed.

(** The first line of a text that does not begin with a double quote does
    not begin with one. *)
Lemma split_head_quote rest h t :
  split newline rest = h :: t ->
  (forall X, rest <> String quote X) -> forall X, h <> String quote X.
Proof.
  destruct rest as [|c r]; [by intros [= <- <-]|].
  rewrite split_cons. destruct (Ascii.eqb c newline); [by intros [= <- <-]|].
  destruct (split_some newline r) as (h' & t' & ->). simpl.
  intros [= <- <-] Hne X [= -> ->]. by eapply Hne.
Qed.

(** One code unit of the first line, by cases. *)
Lemma csvLines_plain c h t res row field ins :
  Ascii.eqb c quote = false -> Ascii.eqb c ","%char && negb ins = false ->
  csvLines (String c h :: t) res row field ins
  = csvLines (h :: t) res row (field +:+ String c EmptyString) ins.
Proof. intros Hq Hc. cbn [csvLines csvLine]. by rewrite Hq, Hc. Qed.

Lemma csvLines_comma h t res row field :
  csvLines (String ","%char h :: t) res row field false
  = csvLines (h :: t) res (row ++ [trim field]) EmptyString false.
Proof. reflexivity. Qed.

Lemma csvLines_open h t res row field :
  csvLines (String quote h :: t) res row field false
  = csvLines (h :: t) res row field true.
Proof. by destruct h. Qed.

Lemma csvLines_close h t res row field :
  (forall X, h <> String quote X) ->
  csvLines (String quote h :: t) res row field true
  = csvLines (h :: t) res row field false.
Proof.
  intros Hne. destruct h as [|c h]; [done|].
  cbn [csvLines csvLine]. rewrite Ascii.eqb_refl.
  replace (Ascii.eqb c quote) with false; [done|].
  symmetry. apply Ascii.eqb_neq. intros ->. by eapply Hne.
Qed.

Lemma csvLines_escaped h t res row field :
  csvLines (String quote (String quote h) :: t) res row field true
  = csvLines (h :: t) res row (field +:+ String quote EmptyString) true.
Proof. reflexivity. Qed.

Lemma csvLines_break t res row field :
  csvLines (EmptyString :: t) res row field true
  = csvLines t res row (field +:+ String newline EmptyString) true.
Proof. reflexivity. Qed.

Lemma csvLines_end_of_line t res row field :
  csvLines (EmptyString :: t) res row field false
  = csvLines t (if existsb nonEmpty (row ++ [trim field])
                then res ++ [row ++ [trim field]] else res) [] EmptyString false.
Proof. reflexivity. Qed.

(** The inside of a quoted field, up to and including its closing quote. *)
Lemma csvLines_field f : forall rest res row field,
  (forall X, rest <> String quote X) ->
  csvLines (split newline (doubleQuotes f +:+ String quote rest)) res row field true
  = csvLines (split newline rest) res row (field +:+ f) false.
Proof.
  induction f as [|c f IH]; intros rest res row field Hrest.
  - cbn [doubleQuotes]. rewrite append_nil_l, append_nil_r, split_cons.
    change (Ascii.eqb quote newline) with false. cbv iota.
    destruct (split_some newline rest) as (h & t & E). rewrite E. cbn [consHead].
    apply csvLines_close. by eapply split_head_quote.
  - cbn [doubleQuotes]. destruct (Ascii.eqb c quote) eqn:Ec.
    + apply Ascii.eqb_eq in Ec as ->. rewrite !append_cons, !split_cons.
      change (Ascii.eqb quote newline) with false. cbv iota.
      destruct (split_some newline (doubleQuotes f +:+ String quote rest))
        as (h & t & E).
      rewrite E. cbn [consHead]. rewrite csvLines_escaped, <- E, IH by done.
      by rewrite append_assoc'.
    + rewrite append_cons, split_cons.
      destruct (split_some newline (doubleQuotes f +:+ String quote rest))
        as (h & t & E).
      destruct (Ascii.eqb c newline) eqn:En.
      * apply Ascii.eqb_eq in En as ->. rewrite csvLines_break, IH by done.
        by rewrite append_assoc'.
      * rewrite E. cbn [consHead].
        rewrite csvLines_plain, <- E, IH by (try done; apply andb_false_r).
        by rewrite append_assoc'.
Qed.

(** A row of quoted fields, up to the end of its last field. *)
Lemma csvLines_row fs : forall tail res row,
  fs <> [] ->
  (forall X, tail <> String quote X) ->
  exists row' field',
    csvLines (split newline (join ","%char (map quoted fs) +:+ tail)) res row
      EmptyString false
    = csvLines (split newline tail) res row' field' false
    /\ row' ++ [trim field'] = row ++ map trim fs.
Proof.
  induction fs as [|f fs IH]; intros tail res row Hne Htail; [done|].
  destruct fs as [|g fs].
  - cbn [map join]. unfold quoted.
    rewrite append_cons, append_assoc', append_cons, append_nil_l, split_cons.
    change (Ascii.eqb quote newline) with false. cbv iota.
    destruct (split_some newline (doubleQuotes f +:+ String quote tail)) as (h & t & E).
    rewrite E. cbn [consHead]. rewrite csvLines_open, <- E, csvLines_field by done.
    exists row, f. by rewrite append_nil_l.
  - change (join ","%char (map quoted (f :: g :: fs)))
      with (quoted f +:+ String ","%char (join ","%char (map quoted (g :: fs)))).
    unfold quoted at 1.
    rewrite append_assoc', !append_cons, append_assoc', !append_cons, append_nil_l.
    rewrite split_cons. change (Ascii.eqb quote newline) with false. cbv iota.
    set (J := join ","%char (map quoted (g :: fs)) +:+ tail).
    destruct (split_some newline (doubleQuotes f +:+ String quote (String ","%char J)))
      as (h & t & E).
    rewrite E. cbn [consHead]. rewrite csvLines_open, <- E, csvLines_field by done.
    rewrite append_nil_l, split_cons. change (Ascii.eqb ","%char newline) with false.
    cbv iota. destruct (split_some newline J) as (h' & t' & E').
    rewrite E'. cbn [consHead]. rewrite csvLines_comma, <- E'. subst J.
    destruct (IH tail res (row ++ [trim f]) ltac:(done) Htail)
      as (row' & field' & -> & Hrow).
    exists row', field'. split; [done|]. rewrite Hrow.
    by rewrite <- (assoc_L (++)).
Qed.

Lemma csvLines_rows rows : forall res,
  rows <> [] -> Forall (fun row => row <> []) rows ->
  csvLines (split newline (writeCSV rows)) res [] EmptyString false
  = res ++ List.filter (existsb nonEmpty) (map (map trim) rows).
Proof.
  unfold writeCSV.
  induction rows as [|r rows IH]; intros res Hne Hall; [done|].
  apply Forall_cons in Hall as [Hr Hall].
  destruct rows as [|r2 rows].
  - cbn [map join]. rewrite <- (append_nil_r (join ","%char (map quoted r))).
    destruct (csvLines_row r EmptyString res [] Hr ltac:(done))
      as (row' & field' & -> & Hrow).
    change (split newline EmptyString) with [EmptyString].
    rewrite csvLines_end_of_line, Hrow. cbn [app List.filter csvLines length].
    change ((0 <? 0)%nat || nonEmpty EmptyString) with false. cbv iota.
    destruct (existsb nonEmpty (map trim r)); [done|by rewrite (right_id_L [] (++))].
  - set (f := fun row => join ","%char (map quoted row)) in *.
    change (join newline (map f (r :: r2 :: rows)))
      with (f r +:+ String newline (join newline (map f (r2 :: rows)))).
    unfold f at 1.
    destruct (csvLines_row r (String newline (join newline (map f (r2 :: rows))))
                res [] Hr ltac:(done)) as (row' & field' & -> & Hrow).
    rewrite split_cons. change (Ascii.eqb newline newline) with true. cbv iota.
    rewrite csvLines_end_of_line, Hrow, IH by done.
    cbn [app map List.filter].
    destruct (existsb nonEmpty (map trim r)); [|done].
    by rewrite <- (assoc_L (++)).
Qed.

(** X19.  The CSV parser reads back a table written with every field
    between double quotes and the double quotes inside doubled, whatever the
    fields hold (commas, double quotes, line breaks): it returns the rows
    with their fields trimmed, without the rows that have no non-empty
    field. *)
Theorem parseCSV_reads_quoted (rows : list (list string)) :
  Forall (fun row => row <> []) rows ->
  parseCSV (writeCSV rows) = List.filter (existsb nonEmpty) (map (map trim) rows).
Proof.
  intros Hall. unfold parseCSV. destruct rows as [|r rows]; [reflexivity|].
  by rewrite csvLines_rows.
Qed.

Lemma parseCSV_reads_quoted_witness :
  parseCSV (writeCSV [ ["a,b"; String quote "c"]; [EmptyString];
                       ["d" +:+ String newline "e"; " f "] ])
  = [ ["a,b"; String quote "c"]; ["d" +:+ String newline "e"; "f"] ].
Proof.
  rewrite parseCSV_reads_quoted by (repeat constructor; done). reflexivity.
Defined.

End CsvMore.
